(** * Topology models of R2X ([src/r2x/models/topology.py])

    The module declares pydantic models: each class lists its fields with a
    type annotation, an optional default and [Field] arguments, and pydantic
    turns the declaration into a validating constructor.  The development
    below keeps both halves apart:

    - the class declarations of [topology.py] are transcribed as lists of
      [FieldInfo] (section "Class declarations");
    - the constructor pydantic derives from such a declaration is the
      function [model_validate] (section "Validation").

    Python values are the type [value]; a keyword-argument mapping is a
    [gmap string value]; a [float] is the rational number it denotes (NaN
    and the infinities are outside the model, comparisons are exact), and
    a float literal of the source is the binary64 number Python reads it
    as. *)

From Stdlib Require Import QArith.
From stdpp Require Import gmap strings list fin_maps.

Set Warnings "-register-all".
Open Scope string_scope.

(** ** External collaborators *)

(** Modelled from the spec: [r2x.enums.ACBusTypes] is not among the sources.
    The spec describes it as a finite closed set of bus-role tags ("e.g.
    slack/PV/PQ"); [topology.py] itself uses the member [PV]. *)
Inductive ACBusTypes := PV | PQ | SLACK.

(** Modelled from the spec: [r2x.units] ([Voltage], [ureg]) is not among the
    sources.  The spec asks for "a value type pairing a numeric magnitude
    with a unit tag from a closed registry, with an explicit
    dimension-compatibility check".  [topology.py] uses [ureg.kV]. *)
Inductive Dimension := voltage_dim | power_dim | current_dim | frequency_dim.

Global Instance Dimension_eq_dec : EqDecision Dimension.
Proof. solve_decision. Defined.

Module ureg.

Inductive Unit := V | kV | MW | MVA | A | Hz.

Definition dimensionality (u : Unit) : Dimension :=
  match u with
  | V | kV => voltage_dim
  | MW | MVA => power_dim
  | A => current_dim
  | Hz => frequency_dim
  end.

End ureg.

Record Quantity := { magnitude : Q; units : ureg.Unit }.

(** [m * ureg.u] *)
Definition quantity (m : Q) (u : ureg.Unit) : Quantity :=
  {| magnitude := m; units := u |}.

(** Modelled from the spec: [r2x.models.named_tuples.MinMax] is not among
    the sources.  The spec describes "a min/max pair with min <= max
    enforcement", "enforced by the bounded-pair value's own constructor
    contract".  A [MinMax.t] is a pair that went through that constructor,
    so it carries the evidence of the check. *)
Module MinMax.

Record t := mk { min : Q; max : Q; min_le_max : Qle_bool min max = true }.

End MinMax.

(** ** Classes and values *)

Inductive class :=
| BaseComponent
| Topology
| AggregationTopology
| Area
| LoadZone
| Bus
| DCBus
| ACBus
| Arc.

Global Instance class_eq_dec : EqDecision class.
Proof. solve_decision. Defined.

(** The base named in each [class C(B):] header. *)
Definition base (c : class) : option class :=
  match c with
  | BaseComponent => None
  | Topology => Some BaseComponent
  | AggregationTopology => Some Topology
  | Area => Some AggregationTopology
  | LoadZone => Some AggregationTopology
  | Bus => Some Topology
  | DCBus => Some Bus
  | ACBus => Some Bus
  | Arc => Some Topology
  end.

Fixpoint subclass_within (depth : nat) (c d : class) : bool :=
  bool_decide (c = d) ||
  match depth, base c with
  | S depth', Some b => subclass_within depth' b d
  | _, _ => false
  end.

(** [issubclass(c, d)]; the hierarchy is four levels deep. *)
Definition issubclass (c d : class) : bool := subclass_within 4 c d.

(** Python values that reach the constructors.  [VModel c attrs] is an
    instance of class [c] with its attributes in declaration order;
    [VDict] is a plain mapping (keyword arguments, or the input for a
    nested model). *)
Inductive value :=
| VNone
| VStr (s : string)
| VInt (n : Z)
| VFloat (x : Q)
| VEnum (e : ACBusTypes)
| VQuantity (q : Quantity)
| VMinMax (m : MinMax.t)
| VDict (d : gmap string value)
| VModel (c : class) (attrs : list (string * value)).

Abbreviation kwargs := (gmap string value).

Definition lookup_attr (k : string) : list (string * value) → option value :=
  fix go attrs :=
    match attrs with
    | [] => None
    | (k', v) :: attrs' => if String.eqb k' k then Some v else go attrs'
    end.

(** [obj.k] *)
Definition getattr (obj : value) (k : string) : option value :=
  match obj with
  | VModel _ attrs => lookup_attr k attrs
  | _ => None
  end.

Definition isinstance (obj : value) (c : class) : bool :=
  match obj with
  | VModel c' _ => issubclass c' c
  | _ => false
  end.

(** ** Validation errors *)

Inductive ErrorType :=
| missing
| extra_forbidden
| string_type
| int_type
| int_parsing
| int_from_float
| float_type
| float_parsing
| enum_type
| minmax_type
| quantity_type
| dimension_mismatch (expected : Dimension)
| model_type (c : class)
| greater_than (bound : Q)
| greater_than_equal (bound : Q)
| less_than (bound : Q)
| less_than_equal (bound : Q)
| min_greater_than_max.

(** One line of a [ValidationError]: where, why, and the rejected input. *)
Record ErrorDetails := error { loc : list string; type : ErrorType; input : value }.

Abbreviation ValidationError := (list ErrorDetails).

(** The outcome of a constructor call: the value, or the raised
    [ValidationError]. *)
Inductive result (A : Type) :=
| Ok (a : A)
| Invalid (errors : ValidationError).
Arguments Ok {A} a.
Arguments Invalid {A} errors.

Definition is_ok {A} (r : result A) : Prop :=
  match r with Ok _ => True | Invalid _ => False end.

Definition errors_of {A} (r : result A) : ValidationError :=
  match r with Ok _ => [] | Invalid es => es end.

Definition bind {A B} (r : result A) (k : A → result B) : result B :=
  match r with
  | Ok a => k a
  | Invalid es => Invalid es
  end.

Definition at_loc (k : string) (e : ErrorDetails) : ErrorDetails :=
  error (k :: loc e) (type e) (input e).

(** Errors of a nested value are reported under the key they were found at. *)
Definition nested {A} (k : string) (r : result A) : result A :=
  match r with
  | Ok a => Ok a
  | Invalid es => Invalid (at_loc k <$> es)
  end.

(** ** Field declarations *)

(** The numeric bounds a [Field(...)] or an annotated type can carry. *)
Record Constraints := {
  c_gt : option Q;
  c_ge : option Q;
  c_lt : option Q;
  c_le : option Q
}.

Definition unconstrained : Constraints :=
  {| c_gt := None; c_ge := None; c_lt := None; c_le := None |}.

Definition merge (a b : Constraints) : Constraints :=
  {| c_gt := from_option Some (c_gt a) (c_gt b);
     c_ge := from_option Some (c_ge a) (c_ge b);
     c_lt := from_option Some (c_lt a) (c_lt b);
     c_le := from_option Some (c_le a) (c_le b) |}.

(** What a class body says of one field: [name: annotation = default],
    with the [alias], [frozen] and [exclude] arguments of [Field]. *)
Record FieldInfo (S : Type) := {
  field_name : string;
  annotation : S;
  field_default : option value;   (* [None]: the field is required *)
  alias : option string;          (* the key the constructor reads *)
  frozen : bool;                  (* no assignment after construction *)
  exclude : bool                  (* left out of [model_dump] *)
}.
Arguments field_name {S} _.
Arguments annotation {S} _.
Arguments field_default {S} _.
Arguments alias {S} _.
Arguments frozen {S} _.
Arguments exclude {S} _.

(** The validation schema pydantic builds for an annotation. *)
Inductive schema :=
| str_schema
| int_schema (cs : Constraints)
| float_schema (cs : Constraints)
| enum_schema
| minmax_schema
| quantity_schema (d : Dimension) (cs : Constraints)
| nullable_schema (s : schema)
| model_schema (c : class) (fields : list (FieldInfo schema)).

Abbreviation Fields := (list (FieldInfo schema)).

(** [Annotated[T, Field(gt=.., lt=..)]]: the bounds go to the numeric schema,
    through [T | None] when the annotated type is optional. *)
Fixpoint constrain (cs : Constraints) (s : schema) : schema :=
  match s with
  | int_schema cs0 => int_schema (merge cs0 cs)
  | float_schema cs0 => float_schema (merge cs0 cs)
  | quantity_schema d cs0 => quantity_schema d (merge cs0 cs)
  | nullable_schema s' => nullable_schema (constrain cs s')
  | _ => s
  end.

(** ** Validation *)

(** The integer a float stands for, when it has no fractional part. *)
Definition integral (x : Q) : option Z :=
  if Pos.eqb (Qden (Qred x)) 1 then Some (Qnum (Qred x)) else None.

(** In its default (lax) mode pydantic converts some values of another
    type to the annotated one: an [int] is read from a float without
    fractional part and from a string, a [float] from an int and from a
    string, a member of an enumeration from its value.  The conversions are
    the library's and the values of the members of [ACBusTypes] are in
    [r2x.enums]; neither is among the sources.  They are taken as they are,
    as the functions of [Lax], and everything below holds whatever they
    are.  A conversion returns the converted number or the reason the
    library gives for refusing the value:

    - [str_as_int s], [str_as_float s]: the integer, the (finite) float
      read from the string [s];
    - [float_as_int x]: the integer the float [x] stands for; a float with
      a fractional part is refused as [int_from_float], and an integral
      float up to 2^53 is converted;
    - [int_as_float n]: the float of the integer [n]; it is [n] itself up
      to 2^53, beyond that the nearest float, and the library refuses an
      integer no float can hold;
    - [enum_by_value v]: the member [ACBusTypes(v)], if there is one. *)
Class Lax := {
  str_as_int : string → ErrorType + Z;
  str_as_float : string → ErrorType + Q;
  float_as_int : Q → ErrorType + Z;
  int_as_float : Z → ErrorType + Q;
  enum_by_value : value → option ACBusTypes;
  float_as_int_fraction x :
    integral x = None → float_as_int x = inl int_from_float;
  float_as_int_integral x n :
    float_as_int x = inr n → integral x = Some n;
  float_as_int_small x n :
    integral x = Some n → (Z.abs n <= 2 ^ 53)%Z → float_as_int x = inr n;
  int_as_float_small n :
    (Z.abs n <= 2 ^ 53)%Z → int_as_float n = inr (inject_Z n)
}.

(** The conversions under which every number converts exactly, no string
    reads as a number and no value names a bus type.  The closed examples
    at the end of the file pass no string where a number or a bus type is
    declared and no number beyond 2^53: they are the same under every
    [Lax], and are computed under this one. *)
Definition exact_numbers : Lax.
Proof.
  refine {| str_as_int := λ _, inl int_parsing;
            str_as_float := λ _, inl float_parsing;
            float_as_int := λ x, match integral x with
                                 | Some n => inr n
                                 | None => inl int_from_float
                                 end;
            int_as_float := λ n, inr (inject_Z n);
            enum_by_value := λ _, None |}.
  - intros x H. by rewrite H.
  - intros x n. destruct (integral x); [|done]. by intros [= ->].
  - intros x n H _. by rewrite H.
  - done.
Defined.

Section lax_mode.
Context `{lax : Lax}.

Definition Qltb (x y : Q) : bool := negb (Qle_bool y x).

Definition check (b : option Q) (holds : Q → bool) (e : Q → ErrorType)
    : option ErrorType :=
  match b with
  | Some q => if holds q then None else Some (e q)
  | None => None
  end.

(** The first bound [x] breaks, in the order pydantic tests them. *)
Definition constraint_error (cs : Constraints) (x : Q) : option ErrorType :=
  match check (c_le cs) (λ b, Qle_bool x b) less_than_equal with
  | Some e => Some e
  | None =>
    match check (c_lt cs) (λ b, Qltb x b) less_than with
    | Some e => Some e
    | None =>
      match check (c_ge cs) (λ b, Qle_bool b x) greater_than_equal with
      | Some e => Some e
      | None => check (c_gt cs) (λ b, Qltb b x) greater_than
      end
    end
  end.

(** The bounds are tested on the converted number [x]; an error reports
    the value as it was given, a success returns the converted value. *)
Definition constrained (cs : Constraints) (x : Q) (given converted : value)
    : result value :=
  match constraint_error cs x with
  | Some e => Invalid [error [] e given]
  | None => Ok converted
  end.

(** Modelled from the spec: the model configuration lives in
    [r2x.models.core.BaseComponent], which is not among the sources.  The
    spec states that unknown keys are rejected ("strict construction"), and
    that a field is addressed by its name as well as by its external label
    (Arc: "[from_to] ... externally labeled from"). *)
Definition populate_by_name : bool := true.

Definition field_key (f : FieldInfo schema) : string :=
  default (field_name f) (alias f).

(** The entry of [kw] a field reads: under its alias, else under its name. *)
Definition field_lookup (f : FieldInfo schema) (kw : kwargs)
    : option (string * value) :=
  match kw !! field_key f with
  | Some v => Some (field_key f, v)
  | None =>
    if populate_by_name
    then (λ v, (field_name f, v)) <$> kw !! field_name f
    else None
  end.

Definition validate_field (validator : schema → value → result value)
    (kw : kwargs) (f : FieldInfo schema) : result value :=
  match field_lookup f kw with
  | Some (k, v) => nested k (validator (annotation f) v)
  | None =>
    match field_default f with
    | Some d => Ok d
    | None => Invalid [error [field_key f] missing (VDict kw)]
    end
  end.

(** All fields are validated, in declaration order; the errors of every
    failing field are collected. *)
Definition validate_fields (validator : schema → value → result value)
    (kw : kwargs) : Fields → ValidationError * list (string * value) :=
  fix go fs :=
    match fs with
    | [] => ([], [])
    | f :: fs' =>
      let '(errs, attrs) := go fs' in
      match validate_field validator kw f with
      | Ok a => (errs, (field_name f, a) :: attrs)
      | Invalid es => ((es ++ errs)%list, attrs)
      end
    end.

Definition used_keys (kw : kwargs) (fs : Fields) : list string :=
  omap (λ f, fst <$> field_lookup f kw) fs.

(** Modelled from the spec: every key no field has read is an error of its
    own ([extra = "forbid"] in the configuration of [BaseComponent]). *)
Definition extra_errors (kw : kwargs) (fs : Fields) : ValidationError :=
  (λ kv, error [kv.1] extra_forbidden kv.2) <$>
    filter (λ kv, kv.1 ∉ used_keys kw fs) (map_to_list kw).

Definition model_validate_with (validator : schema → value → result value)
    (c : class) (fs : Fields) (kw : kwargs) : result value :=
  let '(errs, attrs) := validate_fields validator kw fs in
  match (errs ++ extra_errors kw fs)%list with
  | [] => Ok (VModel c attrs)
  | es => Invalid es
  end.

(** The validation of one value against an annotation.  A number is
    taken as it is or converted ([Lax]), then tested against the bounds;
    a string field takes strings only; [None] is accepted by an optional
    annotation only; an instance of the class or of a subclass is taken as
    it is, and a mapping is validated into an instance, its errors
    reported under the key of the field.  Any other value is an error. *)
Fixpoint validate (s : schema) (v : value) {struct s} : result value :=
  match s with
  | str_schema =>
    match v with
    | VStr _ => Ok v
    | _ => Invalid [error [] string_type v]
    end
  | int_schema cs =>
    match v with
    | VInt n => constrained cs (inject_Z n) v v
    | VFloat x =>
      match float_as_int x with
      | inr n => constrained cs (inject_Z n) v (VInt n)
      | inl e => Invalid [error [] e v]
      end
    | VStr s =>
      match str_as_int s with
      | inr n => constrained cs (inject_Z n) v (VInt n)
      | inl e => Invalid [error [] e v]
      end
    | _ => Invalid [error [] int_type v]
    end
  | float_schema cs =>
    match v with
    | VFloat x => constrained cs x v v
    | VInt n =>
      match int_as_float n with
      | inr x => constrained cs x v (VFloat x)
      | inl e => Invalid [error [] e v]
      end
    | VStr s =>
      match str_as_float s with
      | inr x => constrained cs x v (VFloat x)
      | inl e => Invalid [error [] e v]
      end
    | _ => Invalid [error [] float_type v]
    end
  | enum_schema =>
    match v with
    | VEnum _ => Ok v
    | _ =>
      match enum_by_value v with
      | Some e => Ok (VEnum e)
      | None => Invalid [error [] enum_type v]
      end
    end
  | minmax_schema =>
    match v with
    | VMinMax _ => Ok v
    | _ => Invalid [error [] minmax_type v]
    end
  | quantity_schema d cs =>
    match v with
    | VQuantity q =>
      if bool_decide (ureg.dimensionality (units q) = d)
      then constrained cs (magnitude q) v v
      else Invalid [error [] (dimension_mismatch d) v]
    | _ => Invalid [error [] quantity_type v]
    end
  | nullable_schema s' =>
    match v with
    | VNone => Ok VNone
    | _ => validate s' v
    end
  | model_schema c fs =>
    match v with
    | VModel c' _ =>
      if issubclass c' c then Ok v else Invalid [error [] (model_type c) v]
    | VDict kw => model_validate_with validate c fs kw
    | _ => Invalid [error [] (model_type c) v]
    end
  end.

Definition model_validate (c : class) (fs : Fields) (kw : kwargs) : result value :=
  model_validate_with validate c fs kw.

(** ** Class declarations ([topology.py]) *)

(** The float literals of the module.  Python reads a literal as the
    binary64 number nearest to its decimal: [1.571] is
    7075155014599049 / 2^52, a little below 1571/1000; [0.9] is
    8106479329266893 / 2^53 and [1.1] is 2476979795053773 / 2^51, both a
    little above their decimals ([float_literals_nearest]). *)
Definition float_1_571 : Q := 7075155014599049 # 4503599627370496.
Definition float_0_9 : Q := 8106479329266893 # 9007199254740992.
Definition float_1_1 : Q := 2476979795053773 # 2251799813685248.

(** Type names used in the annotations. *)
Definition str : schema := str_schema.
Definition float : schema := float_schema unconstrained.
Definition Field_gt (b : Q) : Constraints :=
  {| c_gt := Some b; c_ge := None; c_lt := None; c_le := None |}.
Definition Field_ge (b : Q) : Constraints :=
  {| c_gt := None; c_ge := Some b; c_lt := None; c_le := None |}.
Definition Field_lt (b : Q) : Constraints :=
  {| c_gt := None; c_ge := None; c_lt := Some b; c_le := None |}.

(** [pydantic.PositiveInt] is [Annotated[int, Gt(0)]],
    [pydantic.NonNegativeFloat] is [Annotated[float, Ge(0)]]. *)
Definition PositiveInt : schema := int_schema (Field_gt 0).
Definition NonNegativeFloat : schema := float_schema (Field_ge 0).
Definition Voltage : schema := quantity_schema voltage_dim unconstrained.
Definition Optional (s : schema) : schema := nullable_schema s.
Definition Annotated (s : schema) (cs : Constraints) : schema := constrain cs s.

Definition required : option value := None.

(** A field with no alias, not frozen, not excluded (the [description]
    argument of [Field] has no effect on validation and is left out). *)
Definition Field (name : string) (s : schema) (dflt : option value)
    : FieldInfo schema :=
  {| field_name := name; annotation := s; field_default := dflt;
     alias := None; frozen := false; exclude := false |}.

Definition find_field (k : string) (fs : Fields) : option (FieldInfo schema) :=
  List.find (λ f, String.eqb (field_name f) k) fs.

(** The fields of a subclass: those of its base, a redeclared field keeping
    its place, followed by the fields the subclass adds. *)
Definition inherit (bases own : Fields) : Fields :=
  ((λ b, from_option id b (find_field (field_name b) own)) <$> bases) ++
  filter (λ f, ¬ is_Some (find_field (field_name f) bases)) own.

(** Modelled from the spec: [r2x.models.core.BaseComponent] is not among the
    sources.  The spec gives it one attribute, [name], a text identifier
    that "may be empty unless overridden"; every example in [topology.py]
    passes it, and [Arc] redeclares it to give it a default. *)
Definition BaseComponent_fields : Fields :=
  [ Field "name" str required ].

Definition Topology_fields : Fields := inherit BaseComponent_fields [].

Definition AggregationTopology_fields : Fields := inherit Topology_fields [].

Definition Area_fields : Fields := inherit AggregationTopology_fields
  [ Field "peak_active_power" NonNegativeFloat (Some (VFloat 0.0));
    Field "peak_reactive_power" NonNegativeFloat (Some (VFloat 0.0));
    Field "load_response" float (Some (VFloat 0.0)) ].

Definition LoadZone_fields : Fields := inherit AggregationTopology_fields
  [ Field "peak_active_power" NonNegativeFloat (Some (VFloat 0.0));
    Field "peak_reactive_power" NonNegativeFloat (Some (VFloat 0.0)) ].

Definition Bus_fields : Fields := inherit Topology_fields
  [ Field "number" PositiveInt required;
    Field "bustype" (Optional enum_schema) (Some VNone);
    Field "area" (Optional (model_schema Area Area_fields)) (Some VNone);
    Field "load_zone" (Optional (model_schema LoadZone LoadZone_fields)) (Some VNone);
    Field "voltage_limits" (Optional minmax_schema) (Some VNone);
    Field "base_voltage" (Optional (Annotated Voltage (Field_gt 0))) (Some VNone);
    Field "magnitude" (Optional NonNegativeFloat) (Some VNone) ].

Definition DCBus_fields : Fields := inherit Bus_fields [].

Definition ACBus_fields : Fields := inherit Bus_fields
  [ Field "angle"
      (Annotated (Optional float)
         (merge (Field_gt (- float_1_571)) (Field_lt float_1_571)))
      (Some VNone) ].

Definition Arc_fields : Fields := inherit Topology_fields
  [ {| field_name := "name"; annotation := str;
       field_default := Some (VStr EmptyString);
       alias := None; frozen := true; exclude := true |};
    {| field_name := "from_to"; annotation := model_schema Bus Bus_fields;
       field_default := required;
       alias := Some "from"; frozen := false; exclude := false |};
    {| field_name := "to_from"; annotation := model_schema Bus Bus_fields;
       field_default := required;
       alias := Some "to"; frozen := false; exclude := false |} ].

Definition model_fields (c : class) : Fields :=
  match c with
  | BaseComponent => BaseComponent_fields
  | Topology => Topology_fields
  | AggregationTopology => AggregationTopology_fields
  | Area => Area_fields
  | LoadZone => LoadZone_fields
  | Bus => Bus_fields
  | DCBus => DCBus_fields
  | ACBus => ACBus_fields
  | Arc => Arc_fields
  end.

(** The constructor of class [c], called with the keyword arguments [kw]. *)
Definition construct (c : class) (kw : kwargs) : result value :=
  model_validate c (model_fields c) kw.

(** Modelled from the spec: [MinMax(min=lo, max=hi)], the constructor of
    the bounded pair with its min <= max contract. *)
Definition MinMax_new (lo hi : Q) : result MinMax.t :=
  match Qle_bool lo hi as b return Qle_bool lo hi = b → result MinMax.t with
  | true => λ H, Ok (MinMax.mk lo hi H)
  | false => λ _,
    Invalid [error [] min_greater_than_max
               (VDict {[ "min" := VFloat lo; "max" := VFloat hi ]})]
  end eq_refl.

Global Instance result_ret : MRet result := λ A a, Ok a.
Global Instance result_bind : MBind result := λ A B k r, bind r k.

(** *** The [example] class methods *)

Definition Area_example : result value :=
  construct Area {[ "name" := VStr "New York" ]}.

Definition LoadZone_example : result value :=
  construct LoadZone {[ "name" := VStr "ExampleLoadZone" ]}.

Definition DCBus_example : result value :=
  load_zone ← LoadZone_example;
  area ← Area_example;
  construct DCBus
    {[ "number" := VInt 1;
       "name" := VStr "ExampleBus";
       "load_zone" := load_zone;
       "area" := area;
       "base_voltage" := VQuantity (quantity 20 ureg.kV);
       "bustype" := VEnum PV ]}.

Definition ACBus_example : result value :=
  load_zone ← LoadZone_example;
  area ← Area_example;
  voltage_limits ← MinMax_new float_0_9 float_1_1;
  construct ACBus
    {[ "number" := VInt 1;
       "name" := VStr "ExampleBus";
       "load_zone" := load_zone;
       "area" := area;
       "base_voltage" := VQuantity (quantity 13 ureg.kV);
       "voltage_limits" := VMinMax voltage_limits;
       "bustype" := VEnum PV ]}.

(** ** External representation *)

Definition excluded (c : class) (k : string) : bool :=
  from_option exclude false (find_field k (model_fields c)).

Definition dump_attrs (dump : value → value) (skip : string → bool)
    : list (string * value) → list (string * value) :=
  fix go attrs :=
    match attrs with
    | [] => []
    | (k, v) :: attrs' =>
      if skip k then go attrs' else (k, dump v) :: go attrs'
    end.

(** An instance becomes the mapping of its fields, nested instances
    included; fields declared with [exclude=True] are left out. *)
Fixpoint dump_value (v : value) : value :=
  match v with
  | VModel c attrs => VDict (list_to_map (dump_attrs dump_value (excluded c) attrs))
  | _ => v
  end.

(** [obj.model_dump()] *)
Definition model_dump (obj : value) : kwargs :=
  match dump_value obj with
  | VDict d => d
  | _ => ∅
  end.

(** ** What the declarations ask of an input *)

(** [x] is within the bounds [cs]. *)
Definition within (cs : Constraints) (x : Q) : Prop :=
  (∀ b, c_le cs = Some b → x <= b)%Q ∧
  (∀ b, c_lt cs = Some b → x < b)%Q ∧
  (∀ b, c_ge cs = Some b → b <= x)%Q ∧
  (∀ b, c_gt cs = Some b → b < x)%Q.

(** [conforms s v]: the value [v] is of the type the annotation asks for,
    or converts to it, and meets its bounds; a mapping conforms to a model
    when every field it supplies conforms, every field it omits has a
    default, and it has no key that no field reads. *)
Inductive conforms : schema → value → Prop :=
| conforms_str s :
    conforms str_schema (VStr s)
| conforms_int cs n :
    within cs (inject_Z n) → conforms (int_schema cs) (VInt n)
| conforms_int_float cs x n :
    float_as_int x = inr n → within cs (inject_Z n) →
    conforms (int_schema cs) (VFloat x)
| conforms_int_str cs s n :
    str_as_int s = inr n → within cs (inject_Z n) →
    conforms (int_schema cs) (VStr s)
| conforms_float cs x :
    within cs x → conforms (float_schema cs) (VFloat x)
| conforms_float_int cs n x :
    int_as_float n = inr x → within cs x →
    conforms (float_schema cs) (VInt n)
| conforms_float_str cs s x :
    str_as_float s = inr x → within cs x →
    conforms (float_schema cs) (VStr s)
| conforms_enum e :
    conforms enum_schema (VEnum e)
| conforms_enum_value v e :
    enum_by_value v = Some e → conforms enum_schema v
| conforms_minmax m :
    conforms minmax_schema (VMinMax m)
| conforms_quantity d cs q :
    ureg.dimensionality (units q) = d → within cs (magnitude q) →
    conforms (quantity_schema d cs) (VQuantity q)
| conforms_none s :
    conforms (nullable_schema s) VNone
| conforms_some s v :
    conforms s v → conforms (nullable_schema s) v
| conforms_instance c fs c' attrs :
    issubclass c' c = true → conforms (model_schema c fs) (VModel c' attrs)
| conforms_mapping c fs kw :
    (∀ f k v, f ∈ fs → field_lookup f kw = Some (k, v) →
       conforms (annotation f) v) →
    (∀ f, f ∈ fs → field_lookup f kw = None → is_Some (field_default f)) →
    (∀ k, is_Some (kw !! k) → k ∈ used_keys kw fs) →
    conforms (model_schema c fs) (VDict kw).

(** A declared field the input violates: the value supplied for it does not
    conform, or the field is required and nothing is supplied. *)
Definition field_violated (f : FieldInfo schema) (kw : kwargs) : Prop :=
  match field_lookup f kw with
  | Some (_, v) => ¬ conforms (annotation f) v
  | None => field_default f = None
  end.

(** [k] is neither the name nor the alias of a declared field. *)
Definition undeclared (fs : Fields) (k : string) : Prop :=
  ∀ f, f ∈ fs → field_name f ≠ k ∧ field_key f ≠ k.

(** The other fields of [kw] are valid for class [c]: some value for the
    field [k] makes the construction succeed. *)
Definition valid_except (c : class) (k : string) (kw : kwargs) : Prop :=
  ∃ v, is_ok (construct c (<[k := v]> kw)).

(** Among the fields [fs], the key [k] is read by the field named [k]
    only, which is declared with annotation [s] and default [d]. *)
Definition governs (fs : Fields) (k : string) (s : schema) (d : option value)
    : Prop :=
  Forall (λ f, if String.eqb (field_name f) k
               then alias f = None ∧ annotation f = s ∧ field_default f = d
               else field_key f ≠ k) fs
  ∧ is_Some (find_field k fs).

(** A Bus value: an instance a constructor of the Bus family returned. *)
Definition Bus_value (b : value) : Prop :=
  ∃ c kw, issubclass c Bus = true ∧ construct c kw = Ok b.

(** ** What an instance holds *)

(** [stored s a]: [a] is a value an attribute declared with annotation [s]
    can hold after validation: of the declared type and within its bounds,
    [None] only where the annotation is optional, and for a model an
    instance of the class or of a subclass (never a plain mapping). *)
Fixpoint stored (s : schema) (a : value) : Prop :=
  match s with
  | str_schema => ∃ x, a = VStr x
  | int_schema cs => ∃ n, a = VInt n ∧ within cs (inject_Z n)
  | float_schema cs => ∃ x, a = VFloat x ∧ within cs x
  | enum_schema => ∃ e, a = VEnum e
  | minmax_schema => ∃ m, a = VMinMax m
  | quantity_schema d cs =>
    ∃ q, a = VQuantity q ∧ ureg.dimensionality (units q) = d
         ∧ within cs (magnitude q)
  | nullable_schema s' => a = VNone ∨ stored s' a
  | model_schema c _ => ∃ c' attrs, a = VModel c' attrs ∧ issubclass c' c = true
  end.

(** The keyword arguments that pass every attribute of an instance again
    under its field name. *)
Definition attributes (obj : value) : kwargs :=
  match obj with
  | VModel _ attrs => list_to_map attrs
  | _ => ∅
  end.

(** ** Induction over nested schemas *)

Section schema_nested_ind.
Variable P : schema → Prop.
Hypothesis Hstr : P str_schema.
Hypothesis Hint : ∀ cs, P (int_schema cs).
Hypothesis Hfloat : ∀ cs, P (float_schema cs).
Hypothesis Henum : P enum_schema.
Hypothesis Hminmax : P minmax_schema.
Hypothesis Hquantity : ∀ d cs, P (quantity_schema d cs).
Hypothesis Hnullable : ∀ s, P s → P (nullable_schema s).
Hypothesis Hmodel :
  ∀ c fs, Forall (λ f, P (annotation f)) fs → P (model_schema c fs).

Fixpoint schema_nested_ind (s : schema) : P s :=
  match s with
  | str_schema => Hstr
  | int_schema cs => Hint cs
  | float_schema cs => Hfloat cs
  | enum_schema => Henum
  | minmax_schema => Hminmax
  | quantity_schema d cs => Hquantity d cs
  | nullable_schema s' => Hnullable s' (schema_nested_ind s')
  | model_schema c fs =>
    Hmodel c fs
      ((fix all (l : Fields) : Forall (λ f, P (annotation f)) l :=
          match l with
          | [] => List.Forall_nil _
          | f :: l' =>
            @List.Forall_cons _ _ f l' (schema_nested_ind (annotation f)) (all l')
          end) fs)
  end.
End schema_nested_ind.

(** Decides [governs] on the fields of a given class. *)
Ltac solve_governs :=
  split;
  [ repeat first
      [ apply List.Forall_nil
      | apply List.Forall_cons;
        [ vm_compute; first [ done | by repeat split ] | ] ]
  | vm_compute; by eexists ].

(** ** Numeric bounds *)

Lemma Qltb_lt (x y : Q) : Qltb x y = true ↔ (x < y)%Q.
Proof.
  unfold Qltb. rewrite negb_true_iff.
  split.
  - intros H. apply Qnot_le_lt. intros Hle.
    apply Qle_bool_iff in Hle. congruence.
  - intros H. destruct (Qle_bool y x) eqn:E; [|done].
    apply Qle_bool_iff in E. exfalso. exact (Qlt_not_le _ _ H E).
Qed.

Lemma Qltb_ge (x y : Q) : Qltb x y = false ↔ (y <= x)%Q.
Proof.
  unfold Qltb. rewrite negb_false_iff. apply Qle_bool_iff.
Qed.

Lemma Qle_bool_gt (x y : Q) : Qle_bool x y = false ↔ (y < x)%Q.
Proof.
  rewrite <- Qltb_lt. unfold Qltb. by rewrite negb_true_iff.
Qed.

(** Each float literal is a binary64 number, a numerator below 2^53 over a
    power of two, and lies within half a unit in the last place of its
    decimal: 2^-53 for [1.571] and [1.1], 2^-54 for [0.9]. *)
Lemma float_literals_nearest :
  (float_1_571 < 1.571 ∧ 1.571 - float_1_571 < 1 # 2 ^ 53)%Q ∧
  (0.9 < float_0_9 ∧ float_0_9 - 0.9 < 1 # 2 ^ 54)%Q ∧
  (1.1 < float_1_1 ∧ float_1_1 - 1.1 < 1 # 2 ^ 53)%Q ∧
  (0 < Qnum float_1_571 < 2 ^ 53)%Z ∧ Qden float_1_571 = (2 ^ 52)%positive ∧
  (0 < Qnum float_0_9 < 2 ^ 53)%Z ∧ Qden float_0_9 = (2 ^ 53)%positive ∧
  (0 < Qnum float_1_1 < 2 ^ 53)%Z ∧ Qden float_1_1 = (2 ^ 51)%positive.
Proof. repeat split; vm_compute; reflexivity. Qed.

Lemma check_None b holds e :
  check b holds e = None ↔ ∀ q, b = Some q → holds q = true.
Proof.
  unfold check. destruct b as [q|].
  - destruct (holds q) eqn:E; split; try done.
    + by intros _ q' [= <-].
    + intros H. specialize (H q eq_refl). congruence.
  - split; done.
Qed.

Lemma constraint_error_None cs x :
  constraint_error cs x = None ↔ within cs x.
Proof.
  unfold constraint_error, within.
  destruct (check (c_le cs) _ _) eqn:E1.
  { split; [done|]. intros (H & _).
    assert (check (c_le cs) (λ b, Qle_bool x b) less_than_equal = None) as E.
    { apply check_None. intros q Hq. apply Qle_bool_iff. by apply H. }
    congruence. }
  destruct (check (c_lt cs) _ _) eqn:E2.
  { split; [done|]. intros (_ & H & _).
    assert (check (c_lt cs) (λ b, Qltb x b) less_than = None) as E.
    { apply check_None. intros q Hq. apply Qltb_lt. by apply H. }
    congruence. }
  destruct (check (c_ge cs) _ _) eqn:E3.
  { split; [done|]. intros (_ & _ & H & _).
    assert (check (c_ge cs) (λ b, Qle_bool b x) greater_than_equal = None) as E.
    { apply check_None. intros q Hq. apply Qle_bool_iff. by apply H. }
    congruence. }
  rewrite check_None in E1, E2, E3. rewrite check_None.
  split.
  - intros E4. repeat split; intros b Hb.
    + apply Qle_bool_iff; eauto.
    + apply Qltb_lt; eauto.
    + apply Qle_bool_iff; eauto.
    + apply Qltb_lt; eauto.
  - intros (_ & _ & _ & H) q Hq. apply Qltb_lt. by apply H.
Qed.

Lemma check_Some b holds e r :
  check b holds e = Some r → ∃ q, b = Some q ∧ holds q = false ∧ r = e q.
Proof.
  unfold check. destruct b as [q|]; [|done].
  destruct (holds q) eqn:E; [done|]. intros [= <-]. eauto.
Qed.

(** The reason reported for a number names a bound the number breaks. *)
Lemma constraint_error_sound cs x e :
  constraint_error cs x = Some e →
  (∃ b, e = less_than_equal b ∧ c_le cs = Some b ∧ (b < x)%Q) ∨
  (∃ b, e = less_than b ∧ c_lt cs = Some b ∧ (b <= x)%Q) ∨
  (∃ b, e = greater_than_equal b ∧ c_ge cs = Some b ∧ (x < b)%Q) ∨
  (∃ b, e = greater_than b ∧ c_gt cs = Some b ∧ (x <= b)%Q).
Proof.
  unfold constraint_error.
  destruct (check (c_le cs) _ _) eqn:E1.
  { intros [= <-]. apply check_Some in E1 as (b & ? & Hb & ->).
    apply Qle_bool_gt in Hb. left. eauto. }
  destruct (check (c_lt cs) _ _) eqn:E2.
  { intros [= <-]. apply check_Some in E2 as (b & ? & Hb & ->).
    apply Qltb_ge in Hb. right; left. eauto. }
  destruct (check (c_ge cs) _ _) eqn:E3.
  { intros [= <-]. apply check_Some in E3 as (b & ? & Hb & ->).
    apply Qle_bool_gt in Hb. right; right; left. eauto. }
  intros (b & ? & Hb & ->)%check_Some.
  apply Qltb_ge in Hb. right; right; right. eauto.
Qed.

Lemma constrained_ok cs x v w : is_ok (constrained cs x v w) ↔ within cs x.
Proof.
  rewrite <- constraint_error_None. unfold constrained.
  destruct (constraint_error cs x); simpl; split; done.
Qed.

Lemma constrained_Ok cs x v w a : constrained cs x v w = Ok a → a = w.
Proof. unfold constrained. destruct (constraint_error cs x); congruence. Qed.

Lemma constrained_within cs x v w : within cs x → constrained cs x v w = Ok w.
Proof.
  intros H. apply constraint_error_None in H. unfold constrained. by rewrite H.
Qed.

(** ** Results *)

Lemma is_ok_Ok {A} (r : result A) : is_ok r ↔ ∃ a, r = Ok a.
Proof.
  destruct r as [a|es]; simpl.
  - split; eauto.
  - split; [done | intros [? ?]; done].
Qed.

Lemma not_ok_Invalid {A} (r : result A) : ¬ is_ok r ↔ ∃ es, r = Invalid es.
Proof.
  destruct r as [a|es]; simpl.
  - split; [intros H; by destruct H | intros [? ?]; done].
  - split; [eauto | intros _ []].
Qed.

Lemma nested_ok {A} k (r : result A) : is_ok (nested k r) ↔ is_ok r.
Proof. by destruct r. Qed.

Lemma nested_Ok {A} k (r : result A) a : nested k r = Ok a ↔ r = Ok a.
Proof. destruct r; simpl; split; congruence. Qed.

(** ** The validator and the declarations agree *)

Lemma validate_fields_cons validator kw f fs :
  validate_fields validator kw (f :: fs) =
  let '(errs, attrs) := validate_fields validator kw fs in
  match validate_field validator kw f with
  | Ok a => (errs, (field_name f, a) :: attrs)
  | Invalid es => ((es ++ errs)%list, attrs)
  end.
Proof. reflexivity. Qed.

(** The errors of a model are the errors of its fields, in order. *)
Lemma validate_fields_errors validator kw fs :
  (validate_fields validator kw fs).1 =
  concat ((λ f, errors_of (validate_field validator kw f)) <$> fs).
Proof.
  induction fs as [|f fs IH]; [done|].
  rewrite validate_fields_cons, fmap_cons.
  destruct (validate_fields validator kw fs) as [errs attrs].
  simpl in *. destruct (validate_field validator kw f); simpl; by rewrite IH.
Qed.

Lemma model_validate_with_Invalid validator c fs kw es :
  model_validate_with validator c fs kw = Invalid es →
  es ≠ [] ∧
  es = (concat ((λ f, errors_of (validate_field validator kw f)) <$> fs)
        ++ extra_errors kw fs)%list.
Proof.
  unfold model_validate_with.
  rewrite <- validate_fields_errors.
  destruct (validate_fields validator kw fs) as [errs attrs]; simpl.
  destruct (errs ++ extra_errors kw fs)%list eqn:E; [done|].
  intros [= <-]. done.
Qed.

Lemma model_validate_with_Ok validator c fs kw obj :
  model_validate_with validator c fs kw = Ok obj →
  concat ((λ f, errors_of (validate_field validator kw f)) <$> fs) = []
  ∧ extra_errors kw fs = []
  ∧ obj = VModel c (validate_fields validator kw fs).2.
Proof.
  unfold model_validate_with.
  rewrite <- validate_fields_errors.
  destruct (validate_fields validator kw fs) as [errs attrs]; simpl.
  destruct (errs ++ extra_errors kw fs)%list eqn:E; [|done].
  apply app_eq_nil in E as [-> ->]. by intros [= <-].
Qed.

Lemma constrained_Invalid_nonempty cs x v w es :
  constrained cs x v w = Invalid es → es ≠ [].
Proof.
  unfold constrained. destruct (constraint_error cs x); by intros [= <-].
Qed.

Lemma validate_Invalid_nonempty s v es : validate s v = Invalid es → es ≠ [].
Proof.
  revert v es.
  induction s as [ | cs | cs | | | d cs | s IH | c fs]; intros v es.
  - destruct v; simpl; by intros [= <-].
  - destruct v; simpl;
      try (by intros [= <-]); try (by apply constrained_Invalid_nonempty).
    + destruct (str_as_int s);
        [by intros [= <-] | apply constrained_Invalid_nonempty].
    + destruct (float_as_int x);
        [by intros [= <-] | apply constrained_Invalid_nonempty].
  - destruct v; simpl;
      try (by intros [= <-]); try (by apply constrained_Invalid_nonempty).
    + destruct (str_as_float s);
        [by intros [= <-] | apply constrained_Invalid_nonempty].
    + destruct (int_as_float n);
        [by intros [= <-] | apply constrained_Invalid_nonempty].
  - destruct v; simpl; try done; destruct (enum_by_value _); by intros [= <-].
  - destruct v; simpl; by intros [= <-].
  - destruct v; simpl; try (by intros [= <-]).
    case_bool_decide; [apply constrained_Invalid_nonempty | by intros [= <-]].
  - destruct v; simpl; try done; apply IH.
  - destruct v; simpl; try (by intros [= <-]).
    + intros H. by apply model_validate_with_Invalid in H as [? _].
    + destruct (issubclass _ _); by intros [= <-].
Qed.

Lemma validate_field_Invalid_nonempty kw f es :
  validate_field validate kw f = Invalid es → es ≠ [].
Proof.
  unfold validate_field.
  destruct (field_lookup f kw) as [[k v]|].
  - destruct (validate (annotation f) v) as [a|es'] eqn:E; simpl; [done|].
    intros [= <-]. apply validate_Invalid_nonempty in E.
    by destruct es'.
  - destruct (field_default f); by intros [= <-].
Qed.

Lemma field_errors_nil kw fs :
  concat ((λ f, errors_of (validate_field validate kw f)) <$> fs) = [] ↔
  ∀ f, f ∈ fs → is_ok (validate_field validate kw f).
Proof.
  induction fs as [|f fs IH]; simpl.
  - split; [|done]. intros _ f Hf. by apply elem_of_nil in Hf.
  - split.
    + intros H. apply app_eq_nil in H as [Hf Hfs].
      intros g Hg. apply elem_of_cons in Hg as [->|Hg].
      * destruct (validate_field validate kw f) as [a|es] eqn:E; [done|].
        simpl in Hf. subst es. by apply validate_field_Invalid_nonempty in E.
      * by apply IH.
    + intros H.
      assert (is_ok (validate_field validate kw f)) as Hf
        by (apply H; left).
      destruct (validate_field validate kw f); [|done]. simpl.
      apply IH. intros g Hg. apply H. by right.
Qed.

Lemma field_errors_elem kw fs f e :
  f ∈ fs → e ∈ errors_of (validate_field validate kw f) →
  e ∈ concat ((λ f, errors_of (validate_field validate kw f)) <$> fs).
Proof.
  intros Hf He. induction fs as [|g fs IH]; [by apply elem_of_nil in Hf|].
  simpl. apply elem_of_app. apply elem_of_cons in Hf as [->|Hf]; eauto.
Qed.

Lemma extra_errors_nil kw fs :
  extra_errors kw fs = [] ↔ ∀ k, is_Some (kw !! k) → k ∈ used_keys kw fs.
Proof.
  unfold extra_errors. split.
  - intros H k [v Hv]. apply fmap_nil_inv in H.
    destruct (decide (k ∈ used_keys kw fs)) as [|Hn]; [done|].
    assert ((k, v) ∈ filter (λ kv, kv.1 ∉ used_keys kw fs) (map_to_list kw)) as Hin.
    { apply list_elem_of_filter. split; [done|]. by apply elem_of_map_to_list. }
    rewrite H in Hin. by apply elem_of_nil in Hin.
  - intros H.
    destruct (filter _ _) as [|[k v] l] eqn:E; [done|]. exfalso.
    assert ((k, v) ∈ filter (λ kv, kv.1 ∉ used_keys kw fs) (map_to_list kw)) as Hin
      by (rewrite E; left).
    apply list_elem_of_filter in Hin as [Hn Hin]. simpl in Hn.
    apply elem_of_map_to_list in Hin. destruct Hn. apply H. by exists v.
Qed.

Lemma extra_errors_elem kw fs k v :
  kw !! k = Some v → k ∉ used_keys kw fs →
  error [k] extra_forbidden v ∈ extra_errors kw fs.
Proof.
  intros Hv Hn. unfold extra_errors. apply list_elem_of_fmap.
  exists (k, v). split; [done|].
  apply list_elem_of_filter. split; [done|]. by apply elem_of_map_to_list.
Qed.

Lemma elem_of_used_keys kw fs k :
  k ∈ used_keys kw fs ↔ ∃ f v, f ∈ fs ∧ field_lookup f kw = Some (k, v).
Proof.
  unfold used_keys. rewrite list_elem_of_omap.
  split.
  - intros (f & Hf & Hk). exists f.
    destruct (field_lookup f kw) as [[k' v]|]; simplify_eq/=. eauto.
  - intros (f & v & Hf & Hk). exists f. by rewrite Hk.
Qed.

Lemma undeclared_unused kw fs k : undeclared fs k → k ∉ used_keys kw fs.
Proof.
  intros Hu Hk. apply elem_of_used_keys in Hk as (f & v & Hf & Hk).
  destruct (Hu f Hf) as [Hn Ha].
  unfold field_lookup in Hk.
  destruct (kw !! field_key f); [by simplify_eq|].
  simpl in Hk. destruct (kw !! field_name f); by simplify_eq/=.
Qed.

(** A model is constructed exactly when each field validates and no key
    is left unread. *)
Lemma model_validate_ok c fs kw :
  is_ok (model_validate c fs kw) ↔
  (∀ f, f ∈ fs → is_ok (validate_field validate kw f)) ∧
  (∀ k, is_Some (kw !! k) → k ∈ used_keys kw fs).
Proof.
  rewrite <- field_errors_nil, <- extra_errors_nil.
  unfold model_validate.
  destruct (model_validate_with validate c fs kw) as [obj|es] eqn:E; simpl.
  - apply model_validate_with_Ok in E as (? & ? & _). done.
  - apply model_validate_with_Invalid in E as [Hne ->].
    split; [done|]. intros [H1 H2]. by rewrite H1, H2 in Hne.
Qed.

Lemma model_validate_Invalid c fs kw es :
  model_validate c fs kw = Invalid es →
  es ≠ [] ∧
  (∀ f e, f ∈ fs → e ∈ errors_of (validate_field validate kw f) → e ∈ es) ∧
  (∀ k v, kw !! k = Some v → k ∉ used_keys kw fs →
     error [k] extra_forbidden v ∈ es).
Proof.
  intros H. apply model_validate_with_Invalid in H as [Hne ->].
  split; [done|]. split.
  - intros f e Hf He. apply elem_of_app. left. by eapply field_errors_elem.
  - intros k v Hv Hn. apply elem_of_app. right. by apply extra_errors_elem.
Qed.

Lemma model_validate_Ok c fs kw obj :
  model_validate c fs kw = Ok obj →
  obj = VModel c (validate_fields validate kw fs).2.
Proof. intros H. by apply model_validate_with_Ok in H as (_ & _ & ->). Qed.

Lemma validate_field_ok_iff kw f :
  is_ok (validate_field validate kw f) ↔
  match field_lookup f kw with
  | Some (_, v) => is_ok (validate (annotation f) v)
  | None => is_Some (field_default f)
  end.
Proof.
  unfold validate_field. destruct (field_lookup f kw) as [[k v]|].
  - apply nested_ok.
  - destruct (field_default f); simpl; split; done.
Qed.

(** The validator accepts exactly the conforming inputs. *)
Lemma validate_conforms s v : is_ok (validate s v) ↔ conforms s v.
Proof.
  revert v. induction s as [ | cs | cs | | | d cs | s IH | c fs IH]
    using schema_nested_ind; intros v.
  - destruct v; simpl; split; try done; try (by inversion 1). constructor.
  - destruct v; simpl; try (split; [done | by inversion 1]).
    + destruct (str_as_int s) as [e|n] eqn:E; simpl.
      * split; [done | inversion 1; congruence].
      * rewrite constrained_ok.
        split; [by econstructor | inversion 1; congruence].
    + rewrite constrained_ok. split; [by constructor | by inversion 1].
    + destruct (float_as_int x) as [e|n] eqn:E; simpl.
      * split; [done | inversion 1; congruence].
      * rewrite constrained_ok.
        split; [by econstructor | inversion 1; congruence].
  - destruct v; simpl; try (split; [done | by inversion 1]).
    + destruct (str_as_float s) as [e|x] eqn:E; simpl.
      * split; [done | inversion 1; congruence].
      * rewrite constrained_ok.
        split; [by econstructor | inversion 1; congruence].
    + destruct (int_as_float n) as [e|x] eqn:E; simpl.
      * split; [done | inversion 1; congruence].
      * rewrite constrained_ok.
        split; [by econstructor | inversion 1; congruence].
    + rewrite constrained_ok. split; [by constructor | by inversion 1].
  - destruct v; simpl; try (split; [by constructor | done]);
      (destruct (enum_by_value _) as [e|] eqn:E; simpl;
       [split; [by econstructor | done]
       |split; [done | inversion 1; congruence]]).
  - destruct v; simpl; split; try done; try (by inversion 1). constructor.
  - destruct v; simpl; try (split; [done | by inversion 1]).
    case_bool_decide as Hd.
    + rewrite constrained_ok. split; [by constructor | by inversion 1].
    + split; [done | by inversion 1].
  - destruct v; simpl;
      try (rewrite IH; split; [by constructor | by inversion 1]).
    split; [constructor | done].
  - destruct v; simpl; try (split; [done | by inversion 1]).
    + change (model_validate_with validate c fs d) with (model_validate c fs d).
      rewrite model_validate_ok. split.
      * intros [Hf Hx]. constructor; [| |done].
        -- intros f k v Hin Hl. specialize (Hf f Hin).
           rewrite validate_field_ok_iff, Hl in Hf.
           rewrite Forall_forall in IH. by apply (IH f Hin).
        -- intros f Hin Hl. specialize (Hf f Hin).
           by rewrite validate_field_ok_iff, Hl in Hf.
      * intros Hc. inversion Hc as [| | | | | | | | | | | | | |c' fs' kw' H1 H2 H3];
          subst.
        split; [|done]. intros f Hin. rewrite validate_field_ok_iff.
        destruct (field_lookup f d) as [[k v]|] eqn:Hl.
        -- rewrite Forall_forall in IH. apply (IH f Hin). by eapply H1.
        -- by apply H2.
    + destruct (issubclass c0 c) eqn:E; simpl.
      * split; [by constructor | done].
      * split; [done | inversion 1; congruence].
Qed.

Lemma validate_field_violated kw f :
  field_violated f kw ↔ ¬ is_ok (validate_field validate kw f).
Proof.
  rewrite validate_field_ok_iff. unfold field_violated.
  destruct (field_lookup f kw) as [[k v]|].
  - by rewrite validate_conforms.
  - destruct (field_default f) as [d|].
    + split; [done|]. intros H. exfalso. apply H. by exists d.
    + split; [|done]. by intros _ [? ?].
Qed.

(** ** One field at a time *)

Lemma governs_field fs k s d f :
  governs fs k s d → f ∈ fs →
  (field_name f = k ∧ alias f = None ∧ annotation f = s ∧ field_default f = d)
  ∨ (field_name f ≠ k ∧ field_key f ≠ k).
Proof.
  intros [Hall _] Hf. rewrite Forall_forall in Hall. specialize (Hall f Hf).
  destruct (String.eqb (field_name f) k) eqn:E.
  - apply String.eqb_eq in E. left. by destruct Hall as (? & ? & ?).
  - apply String.eqb_neq in E. by right.
Qed.

Lemma governs_exists fs k s d :
  governs fs k s d →
  ∃ f, f ∈ fs ∧ field_name f = k ∧ alias f = None ∧ annotation f = s
       ∧ field_default f = d.
Proof.
  intros Hg. destruct (proj2 Hg) as [f Hf].
  apply List.find_some in Hf as [Hin E].
  apply list_elem_of_In in Hin. apply String.eqb_eq in E.
  exists f. split; [done|].
  destruct (governs_field _ _ _ _ _ Hg Hin) as [?|[? _]]; done.
Qed.

Lemma field_lookup_own f k v (kw : kwargs) :
  field_name f = k → alias f = None →
  field_lookup f (<[k:=v]> kw) = Some (k, v).
Proof.
  intros Hn Ha. unfold field_lookup, field_key. rewrite Ha, Hn. simpl.
  by rewrite lookup_insert_eq.
Qed.

Lemma field_lookup_own_delete f k (kw : kwargs) :
  field_name f = k → alias f = None → field_lookup f (delete k kw) = None.
Proof.
  intros Hn Ha. unfold field_lookup, field_key. rewrite Ha, Hn. simpl.
  by rewrite lookup_delete_eq.
Qed.

Lemma field_lookup_other f k v (kw : kwargs) :
  field_name f ≠ k → field_key f ≠ k →
  field_lookup f (<[k:=v]> kw) = field_lookup f (delete k kw).
Proof.
  intros Hn Ha. unfold field_lookup.
  by rewrite !lookup_insert_ne, !lookup_delete_ne.
Qed.

Lemma validate_field_own f k s v (kw : kwargs) :
  field_name f = k → alias f = None → annotation f = s →
  validate_field validate (<[k:=v]> kw) f = nested k (validate s v).
Proof.
  intros Hn Ha Hs. unfold validate_field.
  by rewrite (field_lookup_own f k v kw Hn Ha), Hs.
Qed.

Lemma validate_field_own_delete f k d (kw : kwargs) :
  field_name f = k → alias f = None → field_default f = Some d →
  validate_field validate (delete k kw) f = Ok d.
Proof.
  intros Hn Ha Hd. unfold validate_field.
  by rewrite (field_lookup_own_delete f k kw Hn Ha), Hd.
Qed.

Lemma used_keys_insert_delete fs k s d v (kw : kwargs) k' :
  governs fs k s d → k' ≠ k →
  k' ∈ used_keys (<[k:=v]> kw) fs ↔ k' ∈ used_keys (delete k kw) fs.
Proof.
  intros Hg Hne. rewrite !elem_of_used_keys.
  split; intros (f & v' & Hin & Hl); exists f, v'; (split; [done|]);
    destruct (governs_field _ _ _ _ _ Hg Hin) as [(Hn & Ha & _)|[Hn Ha]].
  - rewrite (field_lookup_own f k v kw Hn Ha) in Hl. congruence.
  - by rewrite <- (field_lookup_other f k v kw Hn Ha).
  - by rewrite (field_lookup_own_delete f k kw Hn Ha) in Hl.
  - by rewrite (field_lookup_other f k v kw Hn Ha).
Qed.

(** The other fields and keys of [kw], seen from the field [k]. *)
Lemma model_validate_insert_ok c fs k s d v (kw : kwargs) :
  governs fs k s d →
  is_ok (model_validate c fs (<[k:=v]> kw)) ↔
  is_ok (validate s v) ∧
  (∀ f, f ∈ fs → field_name f ≠ k →
     is_ok (validate_field validate (delete k kw) f)) ∧
  (∀ k', k' ≠ k → is_Some (kw !! k') → k' ∈ used_keys (delete k kw) fs).
Proof.
  intros Hg. rewrite model_validate_ok. split.
  - intros [Hf Hx]. split; [|split].
    + destruct (governs_exists _ _ _ _ Hg) as (f & Hin & Hn & Ha & Hs & _).
      specialize (Hf f Hin).
      rewrite (validate_field_own f k s v kw Hn Ha Hs) in Hf.
      by apply nested_ok in Hf.
    + intros f Hin Hn. specialize (Hf f Hin).
      destruct (governs_field _ _ _ _ _ Hg Hin) as [(? & _)|[_ Ha]]; [done|].
      rewrite validate_field_ok_iff in Hf |- *.
      by rewrite (field_lookup_other f k v kw Hn Ha) in Hf.
    + intros k' Hne Hs.
      apply (used_keys_insert_delete fs k s d v kw k' Hg Hne).
      apply Hx. by rewrite lookup_insert_ne.
  - intros (Hv & Hf & Hx). split.
    + intros f Hin.
      destruct (governs_field _ _ _ _ _ Hg Hin) as [(Hn & Ha & Hs & _)|[Hn Ha]].
      * rewrite (validate_field_own f k s v kw Hn Ha Hs). by apply nested_ok.
      * specialize (Hf f Hin Hn).
        rewrite validate_field_ok_iff in Hf |- *.
        by rewrite (field_lookup_other f k v kw Hn Ha).
    + intros k' Hs. destruct (decide (k' = k)) as [->|Hne].
      * destruct (governs_exists _ _ _ _ Hg) as (f & Hin & Hn & Ha & _).
        apply elem_of_used_keys. exists f, v. split; [done|].
        by apply field_lookup_own.
      * apply (used_keys_insert_delete fs k s d v kw k' Hg Hne).
        apply Hx; [done|]. by rewrite lookup_insert_ne in Hs.
Qed.

Lemma model_validate_delete_ok c fs k s d (kw : kwargs) :
  governs fs k s d →
  is_ok (model_validate c fs (delete k kw)) ↔
  is_Some d ∧
  (∀ f, f ∈ fs → field_name f ≠ k →
     is_ok (validate_field validate (delete k kw) f)) ∧
  (∀ k', k' ≠ k → is_Some (kw !! k') → k' ∈ used_keys (delete k kw) fs).
Proof.
  intros Hg. rewrite model_validate_ok. split.
  - intros [Hf Hx]. split; [|split].
    + destruct (governs_exists _ _ _ _ Hg) as (f & Hin & Hn & Ha & _ & Hd).
      specialize (Hf f Hin). rewrite validate_field_ok_iff in Hf.
      rewrite (field_lookup_own_delete f k kw Hn Ha) in Hf. congruence.
    + intros f Hin _. by apply Hf.
    + intros k' Hne Hs. apply Hx. by rewrite lookup_delete_ne.
  - intros (Hd & Hf & Hx). split.
    + intros f Hin.
      destruct (governs_field _ _ _ _ _ Hg Hin) as [(Hn & Ha & _ & Hd')|[Hn _]].
      * rewrite validate_field_ok_iff.
        rewrite (field_lookup_own_delete f k kw Hn Ha). congruence.
      * by apply Hf.
    + intros k' Hs. destruct (decide (k' = k)) as [->|Hne].
      * rewrite lookup_delete_eq in Hs. by destruct Hs.
      * apply Hx; [done|]. by rewrite lookup_delete_ne in Hs.
Qed.

(** With the other fields valid, the construction succeeds exactly when
    the value of the field validates. *)
Lemma construct_field_ok c k s d v (kw : kwargs) :
  governs (model_fields c) k s d → valid_except c k kw →
  is_ok (construct c (<[k:=v]> kw)) ↔ is_ok (validate s v).
Proof.
  intros Hg [v0 H0]. unfold construct in *.
  rewrite (model_validate_insert_ok c _ k s d v0 kw Hg) in H0.
  rewrite (model_validate_insert_ok c _ k s d v kw Hg).
  destruct H0 as (_ & ? & ?). tauto.
Qed.

(** With the other fields valid, a field with a default may be omitted. *)
Lemma construct_omit_ok c k s d (kw : kwargs) :
  governs (model_fields c) k s (Some d) → valid_except c k kw →
  is_ok (construct c (delete k kw)).
Proof.
  intros Hg [v0 H0]. unfold construct in *.
  rewrite (model_validate_insert_ok c _ k s _ v0 kw Hg) in H0.
  rewrite (model_validate_delete_ok c _ k s _ kw Hg).
  destruct H0 as (_ & ? & ?). eauto.
Qed.

(** A value the field rejects makes the construction fail, and the errors
    of the field are reported under its name. *)
Lemma construct_field_Invalid c k s d v es (kw : kwargs) :
  governs (model_fields c) k s d → validate s v = Invalid es →
  ∃ errs, construct c (<[k:=v]> kw) = Invalid errs ∧ errs ≠ [] ∧
          ∀ e, e ∈ es → at_loc k e ∈ errs.
Proof.
  intros Hg Hv. unfold construct.
  destruct (governs_exists _ _ _ _ Hg) as (f & Hin & Hn & Ha & Hs & _).
  pose proof (validate_field_own f k s v kw Hn Ha Hs) as Hfv.
  rewrite Hv in Hfv. simpl in Hfv.
  destruct (model_validate c (model_fields c) (<[k:=v]> kw)) as [obj|errs] eqn:E.
  - assert (is_ok (model_validate c (model_fields c) (<[k:=v]> kw))) as Hok
      by by rewrite E.
    apply model_validate_ok in Hok as [Hf _]. specialize (Hf f Hin).
    by rewrite Hfv in Hf.
  - exists errs. split; [done|].
    apply model_validate_Invalid in E as (Hne & Hf & _). split; [done|].
    intros e He. apply (Hf f); [done|]. rewrite Hfv. simpl.
    apply list_elem_of_fmap. by exists e.
Qed.

Lemma lookup_attr_validate_fields (kw : kwargs) fs k a :
  (∃ f, f ∈ fs ∧ field_name f = k) →
  (∀ f, f ∈ fs → field_name f = k → validate_field validate kw f = Ok a) →
  lookup_attr k (validate_fields validate kw fs).2 = Some a.
Proof.
  induction fs as [|g fs IH]; intros (f & Hin & Hn) Hall.
  { by apply elem_of_nil in Hin. }
  rewrite validate_fields_cons.
  destruct (validate_fields validate kw fs) as [errs attrs]. simpl in IH.
  destruct (decide (field_name g = k)) as [Hg|Hg].
  - rewrite (Hall g); [|left|done]. simpl.
    apply String.eqb_eq in Hg. by rewrite Hg.
  - assert (lookup_attr k attrs = Some a) as Hrec.
    { apply IH.
      - apply elem_of_cons in Hin as [->|Hin]; [done|]. eauto.
      - intros h Hh. apply Hall. by right. }
    destruct (validate_field validate kw g); simpl; [|done].
    apply String.eqb_neq in Hg. by rewrite Hg.
Qed.

(** The constructed instance holds the validated value of the field. *)
Lemma construct_getattr c k s d v a obj (kw : kwargs) :
  governs (model_fields c) k s d → validate s v = Ok a →
  construct c (<[k:=v]> kw) = Ok obj → getattr obj k = Some a.
Proof.
  intros Hg Hv Hc. apply model_validate_Ok in Hc. subst obj. simpl.
  apply lookup_attr_validate_fields.
  - destruct (governs_exists _ _ _ _ Hg) as (f & ? & ? & _). eauto.
  - intros f Hin Hn.
    destruct (governs_field _ _ _ _ _ Hg Hin) as [(_ & Ha & Hs & _)|[? _]];
      [|done].
    rewrite (validate_field_own f k s v kw Hn Ha Hs). by rewrite Hv.
Qed.

(** An omitted field reads as its default. *)
Lemma construct_omit_getattr c k s d obj (kw : kwargs) :
  governs (model_fields c) k s (Some d) →
  construct c (delete k kw) = Ok obj → getattr obj k = Some d.
Proof.
  intros Hg Hc. apply model_validate_Ok in Hc. subst obj. simpl.
  apply lookup_attr_validate_fields.
  - destruct (governs_exists _ _ _ _ Hg) as (f & ? & ? & _). eauto.
  - intros f Hin Hn.
    destruct (governs_field _ _ _ _ _ Hg Hin) as [(_ & Ha & _ & Hd)|[? _]];
      [|done].
    by apply validate_field_own_delete.
Qed.

Lemma construct_Ok_class c kw obj :
  construct c kw = Ok obj → ∃ attrs, obj = VModel c attrs.
Proof. intros H. apply model_validate_Ok in H. eauto. Qed.

(** ** The declared fields of each class *)

Lemma Bus_family c :
  issubclass c Bus = true → c = Bus ∨ c = DCBus ∨ c = ACBus.
Proof. destruct c; vm_compute; intros; try done; eauto. Qed.

Lemma Bus_family_number c :
  issubclass c Bus = true → governs (model_fields c) "number" PositiveInt required.
Proof. intros [->|[->| ->]]%Bus_family; solve_governs. Qed.

Lemma validate_number n :
  validate PositiveInt (VInt n) =
  if bool_decide (0 < n)%Z then Ok (VInt n)
  else Invalid [error [] (greater_than 0) (VInt n)].
Proof.
  simpl. unfold constrained, constraint_error. simpl.
  case_bool_decide as Hn.
  - assert (Qltb 0 (inject_Z n) = true) as ->; [|done].
    apply Qltb_lt. change (inject_Z 0 < inject_Z n)%Q. by rewrite <- Zlt_Qlt.
  - assert (Qltb 0 (inject_Z n) = false) as ->; [|done].
    apply Qltb_ge. change (inject_Z n <= inject_Z 0)%Q. rewrite <- Zle_Qle. lia.
Qed.

(** C5.  For every integer [n], every class of the Bus family and every
    choice of the other arguments: with [number = n <= 0] the constructor
    raises a ValidationError that names [number]; with [n >= 1], and the
    other arguments valid, it returns an instance whose [number] is [n]. *)
Theorem Bus_number_positive (c : class) (kw : kwargs) (n : Z) :
  issubclass c Bus = true →
  ((n <= 0)%Z →
     ∃ errs, construct c (<["number" := VInt n]> kw) = Invalid errs ∧
             error ["number"] (greater_than 0) (VInt n) ∈ errs)
  ∧ ((1 <= n)%Z → valid_except c "number" kw →
     ∃ obj, construct c (<["number" := VInt n]> kw) = Ok obj ∧
            isinstance obj c = true ∧
            getattr obj "number" = Some (VInt n)).
Proof.
  intros Hc. pose proof (Bus_family_number c Hc) as Hg. split.
  - intros Hn.
    destruct (construct_field_Invalid c "number" PositiveInt required (VInt n)
                [error [] (greater_than 0) (VInt n)] kw Hg)
      as (errs & He & _ & Hin).
    { rewrite validate_number. by rewrite bool_decide_eq_false_2 by lia. }
    exists errs. split; [done|].
    apply (Hin (error [] (greater_than 0) (VInt n))). by left.
  - intros Hn Hrest.
    assert (validate PositiveInt (VInt n) = Ok (VInt n)) as Hv.
    { rewrite validate_number. by rewrite bool_decide_eq_true_2 by lia. }
    assert (is_ok (construct c (<["number" := VInt n]> kw))) as Hok.
    { apply (construct_field_ok c "number" PositiveInt required); [done..|].
      by rewrite Hv. }
    apply is_ok_Ok in Hok as [obj Hobj]. exists obj. split; [done|]. split.
    + destruct (construct_Ok_class _ _ _ Hobj) as [attrs ->]. simpl.
      by destruct c.
    + by apply (construct_getattr c "number" PositiveInt required (VInt n)
                  (VInt n) obj kw).
Qed.

Lemma ACBus_angle_governs :
  governs (model_fields ACBus) "angle"
    (Annotated (Optional float) (merge (Field_gt (- float_1_571)) (Field_lt float_1_571)))
    (Some VNone).
Proof. solve_governs. Qed.

Lemma validate_angle (a : Q) :
  validate (Annotated (Optional float) (merge (Field_gt (- float_1_571)) (Field_lt float_1_571)))
    (VFloat a) =
  if Qltb a float_1_571
  then if Qltb (- float_1_571) a
       then Ok (VFloat a)
       else Invalid [error [] (greater_than (- float_1_571)) (VFloat a)]
  else Invalid [error [] (less_than float_1_571) (VFloat a)].
Proof.
  simpl. unfold constrained, constraint_error. simpl.
  destruct (Qltb a float_1_571); [|done]. by destruct (Qltb (- float_1_571) a).
Qed.

(** An angle at or beyond a bound is rejected, whatever the other
    arguments. *)
Lemma ACBus_angle_outside (kw : kwargs) (a : Q) :
  (a <= - float_1_571 ∨ float_1_571 <= a)%Q →
  ¬ is_ok (construct ACBus (<["angle" := VFloat a]> kw)).
Proof.
  pose proof ACBus_angle_governs as Hg.
  intros Ha. apply not_ok_Invalid.
  destruct (validate (Annotated (Optional float)
              (merge (Field_gt (- float_1_571)) (Field_lt float_1_571)))
              (VFloat a)) as [w|es] eqn:Hv.
  - exfalso. rewrite validate_angle in Hv.
    destruct (Qltb a float_1_571) eqn:E1; [|done].
    destruct (Qltb (- float_1_571) a) eqn:E2; [|done].
    apply Qltb_lt in E1, E2.
    destruct Ha as [Ha|Ha]; [exact (Qlt_not_le _ _ E2 Ha)|exact (Qlt_not_le _ _ E1 Ha)].
  - destruct (construct_field_Invalid ACBus "angle" _ _ (VFloat a) es kw Hg Hv)
      as (errs & He & _). by exists errs.
Qed.

(** C3.  For every real [a] and every choice of the other (valid)
    arguments, [ACBus(angle=a, ...)] succeeds if and only if [a] lies
    strictly between the two bounds that [Field(gt=-1.571, lt=1.571)]
    declares, and then stores [a].  The bounds are the floats that the
    literals denote: [float_1_571], the float nearest to 1.571, and its
    opposite.  At or below the lower bound the error names [angle] with
    reason "greater than" that bound, at or above the upper bound with
    reason "less than" that bound.  Both end points are rejected: the floats
    [-1.571] and [1.571] that a caller can pass, and the decimal numbers
    -1.571 and 1.571 as well. *)
Theorem ACBus_angle_open_interval (kw : kwargs) (a : Q) :
  valid_except ACBus "angle" kw →
  (is_ok (construct ACBus (<["angle" := VFloat a]> kw))
     ↔ (- float_1_571 < a ∧ a < float_1_571)%Q)
  ∧ (∀ obj, construct ACBus (<["angle" := VFloat a]> kw) = Ok obj →
       getattr obj "angle" = Some (VFloat a))
  ∧ ((a <= - float_1_571)%Q →
       ∃ errs, construct ACBus (<["angle" := VFloat a]> kw) = Invalid errs ∧
               error ["angle"] (greater_than (- float_1_571)) (VFloat a) ∈ errs)
  ∧ ((float_1_571 <= a)%Q →
       ∃ errs, construct ACBus (<["angle" := VFloat a]> kw) = Invalid errs ∧
               error ["angle"] (less_than float_1_571) (VFloat a) ∈ errs)
  ∧ ¬ is_ok (construct ACBus (<["angle" := VFloat (- float_1_571)]> kw))
  ∧ ¬ is_ok (construct ACBus (<["angle" := VFloat float_1_571]> kw))
  ∧ ¬ is_ok (construct ACBus (<["angle" := VFloat (-1.571)]> kw))
  ∧ ¬ is_ok (construct ACBus (<["angle" := VFloat 1.571]> kw)).
Proof.
  intros Hrest. pose proof ACBus_angle_governs as Hg.
  pose proof (validate_angle a) as Hv.
  split; [|split; [|split; [|split; [|split; [|split; [|split]]]]]].
  - rewrite (construct_field_ok ACBus "angle" _ _ (VFloat a) kw Hg Hrest).
    rewrite Hv.
    destruct (Qltb a float_1_571) eqn:E1;
      [destruct (Qltb (- float_1_571) a) eqn:E2|].
    + apply Qltb_lt in E1, E2. simpl. tauto.
    + apply Qltb_ge in E2. simpl. split; [done|].
      intros [H _]. exact (Qlt_not_le _ _ H E2).
    + apply Qltb_ge in E1. simpl. split; [done|].
      intros [_ H]. exact (Qlt_not_le _ _ H E1).
  - intros obj Hobj.
    assert (is_ok (validate (Annotated (Optional float)
              (merge (Field_gt (- float_1_571)) (Field_lt float_1_571))) (VFloat a))) as Hok.
    { apply (construct_field_ok ACBus "angle" _ _ (VFloat a) kw Hg Hrest).
      by rewrite Hobj. }
    apply (construct_getattr ACBus "angle" _ _ (VFloat a) (VFloat a) obj kw Hg);
      [|done].
    rewrite Hv in Hok |- *.
    destruct (Qltb a float_1_571); [|done].
    by destruct (Qltb (- float_1_571) a).
  - intros Ha.
    destruct (construct_field_Invalid ACBus "angle" _ _ (VFloat a)
                [error [] (greater_than (- float_1_571)) (VFloat a)] kw Hg)
      as (errs & He & _ & Hin).
    { rewrite Hv.
      assert (Qltb a float_1_571 = true) as ->.
      { apply Qltb_lt. eapply Qle_lt_trans; [exact Ha|]. reflexivity. }
      assert (Qltb (- float_1_571) a = false) as ->; [|done].
      by apply Qltb_ge. }
    exists errs. split; [done|].
    apply (Hin (error [] (greater_than (- float_1_571)) (VFloat a))). by left.
  - intros Ha.
    destruct (construct_field_Invalid ACBus "angle" _ _ (VFloat a)
                [error [] (less_than float_1_571) (VFloat a)] kw Hg)
      as (errs & He & _ & Hin).
    { rewrite Hv. assert (Qltb a float_1_571 = false) as ->; [|done].
      by apply Qltb_ge. }
    exists errs. split; [done|].
    apply (Hin (error [] (less_than float_1_571) (VFloat a))). by left.
  - apply ACBus_angle_outside. left. apply Qle_refl.
  - apply ACBus_angle_outside. right. apply Qle_refl.
  - apply ACBus_angle_outside. left. by apply Qle_bool_iff.
  - apply ACBus_angle_outside. right. by apply Qle_bool_iff.
Qed.


Lemma Bus_family_base_voltage c :
  issubclass c Bus = true →
  governs (model_fields c) "base_voltage"
    (Optional (Annotated Voltage (Field_gt 0))) (Some VNone).
Proof. intros [->|[->| ->]]%Bus_family; solve_governs. Qed.

Lemma validate_base_voltage (q : Quantity) :
  validate (Optional (Annotated Voltage (Field_gt 0))) (VQuantity q) =
  if bool_decide (ureg.dimensionality (units q) = voltage_dim)
  then if Qltb 0 (magnitude q)
       then Ok (VQuantity q)
       else Invalid [error [] (greater_than 0) (VQuantity q)]
  else Invalid [error [] (dimension_mismatch voltage_dim) (VQuantity q)].
Proof.
  simpl. case_bool_decide; [|done].
  unfold constrained, constraint_error. simpl.
  by destruct (Qltb 0 (magnitude q)).
Qed.

(** C4.  For every quantity [q], every class of the Bus family and every
    choice of the other (valid) arguments, the constructor called with
    [base_voltage = q] succeeds if and only if the magnitude of [q] is
    strictly positive and its unit is a voltage; the instance then holds
    [q] itself (no conversion).  A unit of another dimension is reported as
    a dimension mismatch, a non-positive voltage as "greater than 0", both
    under [base_voltage]. *)
Theorem Bus_base_voltage_positive_voltage (c : class) (kw : kwargs) (q : Quantity) :
  issubclass c Bus = true →
  valid_except c "base_voltage" kw →
  (is_ok (construct c (<["base_voltage" := VQuantity q]> kw))
     ↔ (0 < magnitude q)%Q ∧ ureg.dimensionality (units q) = voltage_dim)
  ∧ (∀ obj, construct c (<["base_voltage" := VQuantity q]> kw) = Ok obj →
       getattr obj "base_voltage" = Some (VQuantity q))
  ∧ (ureg.dimensionality (units q) ≠ voltage_dim →
       ∃ errs, construct c (<["base_voltage" := VQuantity q]> kw) = Invalid errs ∧
               error ["base_voltage"] (dimension_mismatch voltage_dim)
                 (VQuantity q) ∈ errs)
  ∧ (ureg.dimensionality (units q) = voltage_dim → (magnitude q <= 0)%Q →
       ∃ errs, construct c (<["base_voltage" := VQuantity q]> kw) = Invalid errs ∧
               error ["base_voltage"] (greater_than 0) (VQuantity q) ∈ errs).
Proof.
  intros Hc Hrest. pose proof (Bus_family_base_voltage c Hc) as Hg.
  pose proof (validate_base_voltage q) as Hv.
  split; [|split; [|split]].
  - rewrite (construct_field_ok c "base_voltage" _ _ (VQuantity q) kw Hg Hrest).
    rewrite Hv. case_bool_decide as Hd.
    + destruct (Qltb 0 (magnitude q)) eqn:E.
      * apply Qltb_lt in E. simpl. tauto.
      * apply Qltb_ge in E. simpl. split; [done|].
        intros [H _]. exact (Qlt_not_le _ _ H E).
    + simpl. tauto.
  - intros obj Hobj.
    assert (is_ok (validate (Optional (Annotated Voltage (Field_gt 0)))
                     (VQuantity q))) as Hok.
    { apply (construct_field_ok c "base_voltage" _ _ (VQuantity q) kw Hg Hrest).
      by rewrite Hobj. }
    apply (construct_getattr c "base_voltage" _ _ (VQuantity q) (VQuantity q)
             obj kw Hg); [|done].
    rewrite Hv in Hok |- *. case_bool_decide; [|done].
    by destruct (Qltb 0 (magnitude q)).
  - intros Hd.
    destruct (construct_field_Invalid c "base_voltage" _ _ (VQuantity q)
                [error [] (dimension_mismatch voltage_dim) (VQuantity q)] kw Hg)
      as (errs & He & _ & Hin).
    { rewrite Hv. by rewrite bool_decide_eq_false_2. }
    exists errs. split; [done|].
    apply (Hin (error [] (dimension_mismatch voltage_dim) (VQuantity q))).
    by left.
  - intros Hd Hm.
    destruct (construct_field_Invalid c "base_voltage" _ _ (VQuantity q)
                [error [] (greater_than 0) (VQuantity q)] kw Hg)
      as (errs & He & _ & Hin).
    { rewrite Hv. rewrite bool_decide_eq_true_2 by done.
      assert (Qltb 0 (magnitude q) = false) as ->; [|done]. by apply Qltb_ge. }
    exists errs. split; [done|].
    apply (Hin (error [] (greater_than 0) (VQuantity q))). by left.
Qed.

Lemma aggregation_peak_power c k :
  c = Area ∨ c = LoadZone →
  k = "peak_active_power" ∨ k = "peak_reactive_power" →
  governs (model_fields c) k NonNegativeFloat (Some (VFloat 0.0)).
Proof. intros [->| ->] [->| ->]; solve_governs. Qed.

Lemma Area_load_response_governs :
  governs (model_fields Area) "load_response" float (Some (VFloat 0.0)).
Proof. solve_governs. Qed.

Lemma validate_NonNegativeFloat (p : Q) :
  validate NonNegativeFloat (VFloat p) =
  if Qle_bool 0 p then Ok (VFloat p)
  else Invalid [error [] (greater_than_equal 0) (VFloat p)].
Proof.
  simpl. unfold constrained, constraint_error. simpl.
  by destruct (Qle_bool 0 p).
Qed.

(** C6.  For every real [p], for Area and LoadZone and for each of
    [peak_active_power] and [peak_reactive_power]: a negative [p] makes the
    constructor raise a ValidationError that names the field; a
    non-negative [p], with the other arguments valid, is accepted and
    stored.  [load_response] of an Area accepts every real. *)
Theorem aggregation_peak_power_non_negative
    (c : class) (k : string) (kw : kwargs) (p : Q) :
  c = Area ∨ c = LoadZone →
  k = "peak_active_power" ∨ k = "peak_reactive_power" →
  ((p < 0)%Q →
     ∃ errs, construct c (<[k := VFloat p]> kw) = Invalid errs ∧
             error [k] (greater_than_equal 0) (VFloat p) ∈ errs)
  ∧ ((0 <= p)%Q → valid_except c k kw →
     ∃ obj, construct c (<[k := VFloat p]> kw) = Ok obj ∧
            getattr obj k = Some (VFloat p))
  ∧ (valid_except Area "load_response" kw →
     ∃ obj, construct Area (<["load_response" := VFloat p]> kw) = Ok obj ∧
            getattr obj "load_response" = Some (VFloat p)).
Proof.
  intros Hc Hk. pose proof (aggregation_peak_power c k Hc Hk) as Hg.
  pose proof (validate_NonNegativeFloat p) as Hv.
  split; [|split].
  - intros Hp.
    destruct (construct_field_Invalid c k _ _ (VFloat p)
                [error [] (greater_than_equal 0) (VFloat p)] kw Hg)
      as (errs & He & _ & Hin).
    { rewrite Hv. by apply Qle_bool_gt in Hp as ->. }
    exists errs. split; [done|].
    apply (Hin (error [] (greater_than_equal 0) (VFloat p))). by left.
  - intros Hp Hrest. apply Qle_bool_iff in Hp. rewrite Hp in Hv.
    assert (is_ok (construct c (<[k := VFloat p]> kw))) as Hok.
    { apply (construct_field_ok c k _ _ (VFloat p) kw Hg Hrest). by rewrite Hv. }
    apply is_ok_Ok in Hok as [obj Hobj]. exists obj. split; [done|].
    by apply (construct_getattr c k _ _ (VFloat p) (VFloat p) obj kw Hg).
  - intros Hrest. pose proof Area_load_response_governs as Hl.
    assert (validate float (VFloat p) = Ok (VFloat p)) as Hf by done.
    assert (is_ok (construct Area (<["load_response" := VFloat p]> kw))) as Hok.
    { apply (construct_field_ok Area "load_response" _ _ (VFloat p) kw Hl Hrest).
      by rewrite Hf. }
    apply is_ok_Ok in Hok as [obj Hobj]. exists obj. split; [done|].
    by apply (construct_getattr Area "load_response" _ _ (VFloat p) (VFloat p)
                obj kw Hl).
Qed.

Lemma Bus_family_voltage_limits c :
  issubclass c Bus = true →
  governs (model_fields c) "voltage_limits" (Optional minmax_schema) (Some VNone).
Proof. intros [->|[->| ->]]%Bus_family; solve_governs. Qed.

Lemma MinMax_new_Ok (lo hi : Q) :
  (lo <= hi)%Q →
  ∃ m, MinMax_new lo hi = Ok m ∧ MinMax.min m = lo ∧ MinMax.max m = hi.
Proof.
  intros H. apply Qle_bool_iff in H. unfold MinMax_new.
  generalize (eq_refl (Qle_bool lo hi)).
  generalize (Qle_bool lo hi) at 2 3.
  intros b Hb. destruct b; [|congruence]. by eexists.
Qed.

Lemma MinMax_new_Invalid (lo hi : Q) :
  (hi < lo)%Q →
  MinMax_new lo hi =
  Invalid [error [] min_greater_than_max
             (VDict {[ "min" := VFloat lo; "max" := VFloat hi ]})].
Proof.
  intros H. apply Qle_bool_gt in H. unfold MinMax_new.
  generalize (eq_refl (Qle_bool lo hi)).
  generalize (Qle_bool lo hi) at 2 3.
  intros b Hb. destruct b; [congruence|done].
Qed.

(** C2.  For every pair [lo], [hi] and every class of the Bus family: the
    construction [c(voltage_limits=MinMax(min=lo, max=hi), ...)] raises a
    ValidationError when [lo > hi] (the constructor of the pair refuses
    it, so the bus is never built), and succeeds when [lo <= hi] and the
    other arguments are valid, the instance holding the pair; every pair
    that exists has [min <= max] and is accepted as [voltage_limits]. *)
Theorem Bus_voltage_limits_ordered (c : class) (kw : kwargs) (lo hi : Q) :
  issubclass c Bus = true →
  ((hi < lo)%Q →
     ∃ errs,
       (m ← MinMax_new lo hi;
        construct c (<["voltage_limits" := VMinMax m]> kw)) = Invalid errs ∧
       errs = [error [] min_greater_than_max
                 (VDict {[ "min" := VFloat lo; "max" := VFloat hi ]})])
  ∧ ((lo <= hi)%Q → valid_except c "voltage_limits" kw →
     ∃ m obj,
       MinMax_new lo hi = Ok m ∧ MinMax.min m = lo ∧ MinMax.max m = hi ∧
       (m ← MinMax_new lo hi;
        construct c (<["voltage_limits" := VMinMax m]> kw)) = Ok obj ∧
       getattr obj "voltage_limits" = Some (VMinMax m))
  ∧ (∀ m : MinMax.t,
       (MinMax.min m <= MinMax.max m)%Q ∧
       (valid_except c "voltage_limits" kw →
        is_ok (construct c (<["voltage_limits" := VMinMax m]> kw)))).
Proof.
  intros Hc. pose proof (Bus_family_voltage_limits c Hc) as Hg.
  split; [|split].
  - intros H. rewrite (MinMax_new_Invalid lo hi H). eauto.
  - intros H Hrest. destruct (MinMax_new_Ok lo hi H) as (m & Hm & Hlo & Hhi).
    assert (is_ok (construct c (<["voltage_limits" := VMinMax m]> kw))) as Hok.
    { by apply (construct_field_ok c "voltage_limits" _ _ (VMinMax m) kw Hg Hrest). }
    apply is_ok_Ok in Hok as [obj Hobj].
    exists m, obj. rewrite Hm. repeat split; try done.
    by apply (construct_getattr c "voltage_limits" _ _ (VMinMax m) (VMinMax m)
                obj kw Hg).
  - intros m. split.
    + apply Qle_bool_iff. apply MinMax.min_le_max.
    + intros Hrest.
      by apply (construct_field_ok c "voltage_limits" _ _ (VMinMax m) kw Hg Hrest).
Qed.

Lemma Bus_family_optional c k :
  issubclass c Bus = true →
  k ∈ ["bustype"; "area"; "load_zone"; "voltage_limits"; "base_voltage";
       "magnitude"] ∨ (c = ACBus ∧ k = "angle") →
  ∃ s, governs (model_fields c) k s (Some VNone).
Proof.
  intros Hc Hk.
  exists (from_option annotation str (find_field k (model_fields c))).
  destruct Hk as [Hk|[-> ->]]; [|solve_governs].
  apply Bus_family in Hc.
  repeat (apply elem_of_cons in Hk as [->|Hk]);
    [..|by apply elem_of_nil in Hk];
    destruct Hc as [->|[->| ->]]; solve_governs.
Qed.

Lemma Bus_family_magnitude c :
  issubclass c Bus = true →
  governs (model_fields c) "magnitude" (Optional NonNegativeFloat) (Some VNone).
Proof. intros [->|[->| ->]]%Bus_family; solve_governs. Qed.

(** C8.  For every class of the Bus family and each of its optional fields
    ([bustype], [area], [load_zone], [voltage_limits], [base_voltage],
    [magnitude], and [angle] for ACBus): with the other arguments valid,
    the construction without the field succeeds and the field of the
    instance reads [None]; with all of them omitted ([name] and a positive
    [number] only) the construction succeeds and each reads [None].
    [None] is a value of its own, different from every number, string,
    quantity and pair; passing a zero [magnitude] stores the zero, not
    [None]. *)
Theorem Bus_optional_fields_default_absent (c : class) (k : string) (kw : kwargs) :
  issubclass c Bus = true →
  k ∈ ["bustype"; "area"; "load_zone"; "voltage_limits"; "base_voltage";
       "magnitude"] ∨ (c = ACBus ∧ k = "angle") →
  valid_except c k kw →
  (∃ obj, construct c (delete k kw) = Ok obj ∧ getattr obj k = Some VNone)
  ∧ (∀ s n, (1 <= n)%Z →
       ∃ obj, construct c {[ "name" := VStr s; "number" := VInt n ]} = Ok obj ∧
              getattr obj k = Some VNone)
  ∧ (∀ n x s q m, VNone ≠ VInt n ∧ VNone ≠ VFloat x ∧ VNone ≠ VStr s ∧
                  VNone ≠ VQuantity q ∧ VNone ≠ VMinMax m)
  ∧ (valid_except c "magnitude" kw →
     ∃ obj, construct c (<["magnitude" := VFloat 0]> kw) = Ok obj ∧
            getattr obj "magnitude" = Some (VFloat 0) ∧
            getattr obj "magnitude" ≠ Some VNone).
Proof.
  intros Hc Hk Hrest. split; [|split; [|split]].
  - destruct (Bus_family_optional c k Hc Hk) as [s Hg].
    pose proof (construct_omit_ok c k s VNone kw Hg Hrest) as Hok.
    apply is_ok_Ok in Hok as [obj Hobj]. exists obj. split; [done|].
    by apply (construct_omit_getattr c k s VNone obj kw Hg).
  - intros s n Hn. destruct n as [|p|p]; [lia| |lia].
    apply Bus_family in Hc.
    destruct Hk as [Hk|[-> ->]].
    + repeat (apply elem_of_cons in Hk as [->|Hk]);
        [..|by apply elem_of_nil in Hk];
        destruct Hc as [->|[->| ->]];
        eexists; (split; [vm_compute; reflexivity|reflexivity]).
    + eexists; (split; [vm_compute; reflexivity|reflexivity]).
  - done.
  - intros Hm. pose proof (Bus_family_magnitude c Hc) as Hg.
    assert (validate (Optional NonNegativeFloat) (VFloat 0) = Ok (VFloat 0))
      as Hv by done.
    assert (is_ok (construct c (<["magnitude" := VFloat 0]> kw))) as Hok.
    { apply (construct_field_ok c "magnitude" _ _ (VFloat 0) kw Hg Hm).
      by rewrite Hv. }
    apply is_ok_Ok in Hok as [obj Hobj]. exists obj. split; [done|].
    rewrite (construct_getattr c "magnitude" _ _ (VFloat 0) (VFloat 0) obj kw
               Hg Hv Hobj).
    done.
Qed.

(** C10.  The classes the docstrings call abstract are ordinary classes:
    [Topology(name=s)] and [AggregationTopology(name=s)] return an
    instance, and for every positive [n], [Bus(name=s, number=n)] returns
    an instance of Bus itself, every optional field reading [None]. *)
Theorem abstract_classes_constructible (s : string) (n : Z) :
  (1 <= n)%Z →
  construct Topology {[ "name" := VStr s ]}
    = Ok (VModel Topology [("name", VStr s)])
  ∧ construct AggregationTopology {[ "name" := VStr s ]}
    = Ok (VModel AggregationTopology [("name", VStr s)])
  ∧ construct Bus {[ "name" := VStr s; "number" := VInt n ]}
    = Ok (VModel Bus
            [("name", VStr s); ("number", VInt n); ("bustype", VNone);
             ("area", VNone); ("load_zone", VNone); ("voltage_limits", VNone);
             ("base_voltage", VNone); ("magnitude", VNone)]).
Proof.
  intros Hn. destruct n as [|p|p]; [lia| |lia].
  split; [|split]; vm_compute; reflexivity.
Qed.

(** C7.  Each of [Area.example()], [LoadZone.example()], [DCBus.example()]
    and [ACBus.example()] returns an instance of its class; the fields of
    the instance conform to the declarations of the class, and validating
    them again returns the same instance. *)
Theorem examples_are_valid :
  ∃ area load_zone dcbus acbus,
    (Area_example = Ok area ∧ LoadZone_example = Ok load_zone ∧
     DCBus_example = Ok dcbus ∧ ACBus_example = Ok acbus)
    ∧ (isinstance area Area = true ∧ isinstance load_zone LoadZone = true ∧
       isinstance dcbus DCBus = true ∧ isinstance acbus ACBus = true)
    ∧ (conforms (model_schema Area (model_fields Area)) (VDict (model_dump area)) ∧
       conforms (model_schema LoadZone (model_fields LoadZone))
         (VDict (model_dump load_zone)) ∧
       conforms (model_schema DCBus (model_fields DCBus)) (VDict (model_dump dcbus)) ∧
       conforms (model_schema ACBus (model_fields ACBus)) (VDict (model_dump acbus)))
    ∧ (construct Area (model_dump area) = Ok area ∧
       construct LoadZone (model_dump load_zone) = Ok load_zone ∧
       construct DCBus (model_dump dcbus) = Ok dcbus ∧
       construct ACBus (model_dump acbus) = Ok acbus)
    ∧ (validate (model_schema Area (model_fields Area)) area = Ok area ∧
       validate (model_schema LoadZone (model_fields LoadZone)) load_zone
         = Ok load_zone ∧
       validate (model_schema DCBus (model_fields DCBus)) dcbus = Ok dcbus ∧
       validate (model_schema ACBus (model_fields ACBus)) acbus = Ok acbus).
Proof.
  do 4 eexists.
  split; [repeat split; vm_compute; reflexivity|].
  split; [repeat split; vm_compute; reflexivity|].
  split; [|split; repeat split; vm_compute; reflexivity].
  repeat split; apply validate_conforms; vm_compute; exact I.
Qed.

Lemma dump_attrs_skips dump skip attrs k :
  skip k = true → k ∉ (dump_attrs dump skip attrs).*1.
Proof.
  intros Hk. induction attrs as [|[k' v] attrs IH]; simpl.
  - apply not_elem_of_nil.
  - destruct (skip k') eqn:E; [done|]. simpl.
    apply not_elem_of_cons. split; [congruence|done].
Qed.

(** A field declared with [exclude=True] never shows in the dump. *)
Lemma model_dump_excluded c attrs k :
  excluded c k = true → model_dump (VModel c attrs) !! k = None.
Proof.
  intros Hk. unfold model_dump. simpl.
  apply not_elem_of_list_to_map_1. by apply dump_attrs_skips.
Qed.

Lemma Bus_value_instance b :
  Bus_value b →
  ∃ c attrs, b = VModel c attrs ∧ (c = Bus ∨ c = DCBus ∨ c = ACBus).
Proof.
  intros (c & kw & Hc & Hb).
  destruct (construct_Ok_class _ _ _ Hb) as [attrs ->].
  exists c, attrs. split; [done|]. by apply Bus_family.
Qed.

(** C1 as the code has it.  For every pair of Bus values [b1], [b2]:
    [Arc] called with the two buses (under their labels [from] and [to],
    or under the field names) succeeds, and the [name] of the arc is the
    empty string when no name is passed.  When a name [s] is passed the
    arc keeps it: [name] is [s].  In both cases, and for every Arc
    instance, [name] is absent from the external representation. *)
Theorem Arc_name_default_and_excluded (b1 b2 : value) (s : string) :
  Bus_value b1 → Bus_value b2 →
  (∃ arc, construct Arc {[ "from" := b1; "to" := b2 ]} = Ok arc ∧
          getattr arc "name" = Some (VStr EmptyString) ∧
          getattr arc "from_to" = Some b1 ∧ getattr arc "to_from" = Some b2 ∧
          model_dump arc !! "name" = None)
  ∧ (∃ arc, construct Arc {[ "from_to" := b1; "to_from" := b2 ]} = Ok arc ∧
            getattr arc "name" = Some (VStr EmptyString) ∧
            getattr arc "from_to" = Some b1 ∧ getattr arc "to_from" = Some b2 ∧
            model_dump arc !! "name" = None)
  ∧ (∃ arc, construct Arc {[ "name" := VStr s; "from" := b1; "to" := b2 ]}
            = Ok arc ∧
            getattr arc "name" = Some (VStr s) ∧
            getattr arc "from_to" = Some b1 ∧ getattr arc "to_from" = Some b2 ∧
            model_dump arc !! "name" = None)
  ∧ (∀ attrs, model_dump (VModel Arc attrs) !! "name" = None).
Proof.
  intros (c1 & attrs1 & -> & Hc1)%Bus_value_instance
         (c2 & attrs2 & -> & Hc2)%Bus_value_instance.
  split; [|split; [|split]];
    [..|intros attrs; by apply model_dump_excluded];
    destruct Hc1 as [->|[->| ->]], Hc2 as [->|[->| ->]];
    eexists; (split; [vm_compute; reflexivity|]);
    repeat split; vm_compute; reflexivity.
Qed.

Lemma field_lookup_key f (kw : kwargs) k v :
  field_lookup f kw = Some (k, v) → k = field_key f ∨ k = field_name f.
Proof.
  unfold field_lookup. destruct (kw !! field_key f).
  - intros [= <- _]. by left.
  - simpl. destruct (kw !! field_name f); simpl; [|done].
    intros [= <- _]. by right.
Qed.

Lemma validate_field_loc (kw : kwargs) f es e :
  validate_field validate kw f = Invalid es → e ∈ es →
  ∃ rest, loc e = field_key f :: rest ∨ loc e = field_name f :: rest.
Proof.
  unfold validate_field.
  destruct (field_lookup f kw) as [[k v]|] eqn:El.
  - destruct (validate (annotation f) v) as [a|es']; simpl; [done|].
    intros [= <-] He. apply list_elem_of_fmap in He as (e' & -> & _).
    exists (loc e'). simpl.
    destruct (field_lookup_key f kw k v El) as [->| ->]; eauto.
  - destruct (field_default f); [done|]. intros [= <-] He.
    apply list_elem_of_singleton in He as ->. exists []. by left.
Qed.

Lemma undeclared_check fs k :
  forallb (λ f, negb (String.eqb (field_name f) k)
                && negb (String.eqb (field_key f) k)) fs = true →
  undeclared fs k.
Proof.
  intros H f Hf. rewrite forallb_forall in H.
  apply list_elem_of_In in Hf. specialize (H f Hf).
  apply andb_true_iff in H as [H1 H2].
  apply negb_true_iff in H1, H2.
  by apply String.eqb_neq in H1, H2.
Qed.

(** C9.  For every class and every mapping of arguments: the constructor
    succeeds exactly on the mappings that conform to the declarations,
    where a value conforms to a type also when the validator converts it
    to that type (an integral float or a numeric string for an integer, an
    integer or a numeric string for a float, the value of a member for an
    enumeration) and the converted value is within the bounds.
    When the mapping violates a declared field (a value that is not of the
    type and not converted to it, or out of bounds, a required field left
    out) or has a key that is not a declared field, the constructor returns
    no instance but one ValidationError; its lines are not empty, every
    violated field has a line located at that field (the reasons the
    validation of its value gives, or "missing" for a required field left
    out), and every undeclared key has its own "extra forbidden" line. *)
Theorem construct_reports_every_violation (c : class) (kw : kwargs) :
  (is_ok (construct c kw) ↔
     conforms (model_schema c (model_fields c)) (VDict kw))
  ∧ ((∃ f, f ∈ model_fields c ∧ field_violated f kw) ∨
     (∃ k, is_Some (kw !! k) ∧ undeclared (model_fields c) k) →
     ∃ errs,
       construct c kw = Invalid errs ∧ errs ≠ [] ∧
       (∀ f, f ∈ model_fields c → field_violated f kw →
          ∃ e rest, e ∈ errs ∧
                    (loc e = field_key f :: rest ∨ loc e = field_name f :: rest)) ∧
       (∀ f k v es e, f ∈ model_fields c → field_lookup f kw = Some (k, v) →
          validate (annotation f) v = Invalid es → e ∈ es → at_loc k e ∈ errs) ∧
       (∀ f, f ∈ model_fields c → field_lookup f kw = None →
          field_default f = None →
          error [field_key f] missing (VDict kw) ∈ errs) ∧
       (∀ k v, kw !! k = Some v → undeclared (model_fields c) k →
          error [k] extra_forbidden v ∈ errs)).
Proof.
  split; [apply (validate_conforms (model_schema c (model_fields c)) (VDict kw))|].
  intros Hviol. unfold construct.
  destruct (model_validate c (model_fields c) kw) as [obj|errs] eqn:E.
  - exfalso.
    assert (is_ok (model_validate c (model_fields c) kw)) as Hok by by rewrite E.
    apply model_validate_ok in Hok as [Hf Hx].
    destruct Hviol as [(f & Hin & Hv)|(k & Hk & Hu)].
    + apply validate_field_violated in Hv. by apply Hv, Hf.
    + by apply (undeclared_unused kw _ k Hu), Hx.
  - exists errs. split; [done|].
    apply model_validate_Invalid in E as (Hne & Hf & Hx).
    split; [done|]. split.
    + intros f Hin Hv. apply validate_field_violated in Hv.
      apply not_ok_Invalid in Hv as [es Hes].
      pose proof (validate_field_Invalid_nonempty kw f es Hes) as Hnil.
      destruct es as [|e es]; [done|].
      destruct (validate_field_loc kw f (e :: es) e Hes) as [rest Hloc]; [left|].
      exists e, rest. split; [|done].
      apply (Hf f e Hin). rewrite Hes. left.
    + split; [|split].
      * intros f k v es e Hin Hl Hes He. apply (Hf f _ Hin).
        unfold validate_field. rewrite Hl, Hes. simpl.
        apply list_elem_of_fmap. by exists e.
      * intros f Hin Hl Hd. apply (Hf f _ Hin).
        unfold validate_field. rewrite Hl, Hd. simpl. left.
      * intros k v Hk Hu. apply Hx; [done|]. by apply undeclared_unused.
Qed.

(** The ValidationError of the call above, line by line. *)
Example ACBus_error_lines :
  ∃ kw,
    construct ACBus
      {[ "angle" := VFloat 2; "number" := VInt 0; "foo" := VNone ]}
    = Invalid
        [ error ["name"] missing (VDict kw);
          error ["number"] (greater_than 0) (VInt 0);
          error ["angle"] (less_than float_1_571) (VFloat 2);
          error ["foo"] extra_forbidden VNone ].
Proof. eexists. vm_compute. reflexivity. Qed.

(** A bus given as a mapping is validated in place, and its errors are
    reported under the end point of the arc it was given for. *)
Example Arc_nested_bus_error :
  ∃ bus,
    construct DCBus {[ "name" := VStr "b"; "number" := VInt 1 ]} = Ok bus ∧
    construct Arc
      {[ "from" := VDict {[ "name" := VStr "a"; "number" := VInt 0 ]};
         "to" := bus ]}
    = Invalid [ error ["from"; "number"] (greater_than 0) (VInt 0) ].
Proof. eexists. split; [vm_compute; reflexivity|]. vm_compute. reflexivity. Qed.

(** ** Conversions *)

Lemma integral_inject_Z (n : Z) : integral (inject_Z n) = Some n.
Proof.
  unfold integral, Qred, inject_Z.
  pose proof (Z.ggcd_gcd n 1) as Hg.
  pose proof (Z.ggcd_correct_divisors n 1) as Hd.
  destruct (Z.ggcd n 1) as [g [aa bb]]. simpl in *.
  rewrite Z.gcd_1_r in Hg. subst g. destruct Hd as [Ha Hb].
  rewrite Z.mul_1_l in Ha, Hb. by subst.
Qed.

Lemma within_PositiveInt (n : Z) :
  constrained (Field_gt 0) (inject_Z n) =
  λ given converted,
    if bool_decide (0 < n)%Z then Ok converted
    else Invalid [error [] (greater_than 0) given].
Proof.
  unfold constrained, constraint_error. simpl.
  case_bool_decide as Hn.
  - assert (Qltb 0 (inject_Z n) = true) as ->; [|done].
    apply Qltb_lt. change (inject_Z 0 < inject_Z n)%Q. by rewrite <- Zlt_Qlt.
  - assert (Qltb 0 (inject_Z n) = false) as ->; [|done].
    apply Qltb_ge. change (inject_Z n <= inject_Z 0)%Q. rewrite <- Zle_Qle. lia.
Qed.

(** A string that reads as an integer is taken as that integer where an
    integer is declared, and the bound is checked on the integer; the error
    shows the string that was given. *)
Lemma validate_number_str (s : string) (n : Z) :
  str_as_int s = inr n →
  validate PositiveInt (VStr s) =
  if bool_decide (0 < n)%Z then Ok (VInt n)
  else Invalid [error [] (greater_than 0) (VStr s)].
Proof. intros H. simpl. rewrite H. by rewrite within_PositiveInt. Qed.

Lemma validate_number_str_unread (s : string) (e : ErrorType) :
  str_as_int s = inl e →
  validate PositiveInt (VStr s) = Invalid [error [] e (VStr s)].
Proof. intros H. simpl. by rewrite H. Qed.

(** A float without fractional part is taken as the integer; a float with
    a fractional part is refused. *)
Lemma validate_number_float (n : Z) :
  (Z.abs n <= 2 ^ 53)%Z →
  validate PositiveInt (VFloat (inject_Z n)) =
  if bool_decide (0 < n)%Z then Ok (VInt n)
  else Invalid [error [] (greater_than 0) (VFloat (inject_Z n))].
Proof.
  intros Hn. simpl.
  rewrite (float_as_int_small _ n (integral_inject_Z n) Hn).
  by rewrite within_PositiveInt.
Qed.

Lemma validate_number_fraction (x : Q) :
  integral x = None →
  validate PositiveInt (VFloat x) = Invalid [error [] int_from_float (VFloat x)].
Proof. intros H. simpl. by rewrite (float_as_int_fraction x H). Qed.

(** An integer given for a float is stored as a float; out of bounds, the
    error shows the integer that was given. *)
Lemma validate_NonNegativeFloat_int (n : Z) :
  (Z.abs n <= 2 ^ 53)%Z →
  validate NonNegativeFloat (VInt n) =
  if bool_decide (0 <= n)%Z then Ok (VFloat (inject_Z n))
  else Invalid [error [] (greater_than_equal 0) (VInt n)].
Proof.
  intros Hs. simpl. rewrite (int_as_float_small n Hs).
  unfold constrained, constraint_error. simpl.
  case_bool_decide as Hn.
  - assert (Qle_bool 0 (inject_Z n) = true) as ->; [|done].
    apply Qle_bool_iff. change (inject_Z 0 <= inject_Z n)%Q.
    by rewrite <- Zle_Qle.
  - assert (Qle_bool 0 (inject_Z n) = false) as ->; [|done].
    apply Qle_bool_gt. change (inject_Z n < inject_Z 0)%Q.
    rewrite <- Zlt_Qlt. lia.
Qed.

(** [Bus(number='7')]: with a string that reads as an integer [n >= 1] the
    constructor returns a bus whose [number] is the integer [n]. *)
Lemma Bus_number_from_string (c : class) (kw : kwargs) (s : string) (n : Z) :
  issubclass c Bus = true → str_as_int s = inr n → (1 <= n)%Z →
  valid_except c "number" kw →
  ∃ obj, construct c (<["number" := VStr s]> kw) = Ok obj ∧
         getattr obj "number" = Some (VInt n).
Proof.
  intros Hc Hs Hn Hrest. pose proof (Bus_family_number c Hc) as Hg.
  assert (validate PositiveInt (VStr s) = Ok (VInt n)) as Hv.
  { rewrite (validate_number_str s n Hs). by rewrite bool_decide_eq_true_2 by lia. }
  assert (is_ok (construct c (<["number" := VStr s]> kw))) as Hok.
  { apply (construct_field_ok c "number" PositiveInt required); [done..|].
    by rewrite Hv. }
  apply is_ok_Ok in Hok as [obj Hobj]. exists obj. split; [done|].
  by apply (construct_getattr c "number" PositiveInt required (VStr s)
              (VInt n) obj kw).
Qed.

(** [Bus(magnitude=-1)]: the line of the error shows the integer given,
    not the float it was converted to. *)
Lemma Bus_magnitude_negative_int (c : class) (kw : kwargs) (n : Z) :
  issubclass c Bus = true → (- 2 ^ 53 <= n < 0)%Z →
  ∃ errs, construct c (<["magnitude" := VInt n]> kw) = Invalid errs ∧
          error ["magnitude"] (greater_than_equal 0) (VInt n) ∈ errs.
Proof.
  intros Hc Hn. pose proof (Bus_family_magnitude c Hc) as Hg.
  destruct (construct_field_Invalid c "magnitude" _ _ (VInt n)
              [error [] (greater_than_equal 0) (VInt n)] kw Hg)
    as (errs & He & _ & Hin).
  { change (validate (Optional NonNegativeFloat) (VInt n))
      with (validate NonNegativeFloat (VInt n)).
    rewrite validate_NonNegativeFloat_int by lia.
    by rewrite bool_decide_eq_false_2 by lia. }
  exists errs. split; [done|].
  apply (Hin (error [] (greater_than_equal 0) (VInt n))). by left.
Qed.

(** * Further properties of the models *)

(** ** Instances and their attributes *)

Lemma issubclass_refl c : issubclass c c = true.
Proof. by destruct c. Qed.

Lemma constrained_Ok_within cs x v w a :
  constrained cs x v w = Ok a → a = w ∧ within cs x.
Proof.
  intros H. split; [by eapply constrained_Ok|].
  apply (constrained_ok cs x v w). by rewrite H.
Qed.

(** What the validator returns is of the declared type. *)
Lemma validate_stored s v a : validate s v = Ok a → stored s a.
Proof.
  revert v a.
  induction s as [ | cs | cs | | | d cs | s IH | c fs]; intros v a; simpl.
  - destruct v; try done. intros [= <-]. eauto.
  - destruct v; try done.
    + destruct (str_as_int s); [done|].
      intros [-> ?]%constrained_Ok_within. eauto.
    + intros [-> ?]%constrained_Ok_within. eauto.
    + destruct (float_as_int x); [done|].
      intros [-> ?]%constrained_Ok_within. eauto.
  - destruct v; try done.
    + destruct (str_as_float s); [done|].
      intros [-> ?]%constrained_Ok_within. eauto.
    + destruct (int_as_float n); [done|].
      intros [-> ?]%constrained_Ok_within. eauto.
    + intros [-> ?]%constrained_Ok_within. eauto.
  - destruct v; try (intros [= <-]; eauto);
      (destruct (enum_by_value _); [|done]; intros [= <-]; eauto).
  - destruct v; try done. intros [= <-]. eauto.
  - destruct v; try done. case_bool_decide; [|done].
    intros [-> ?]%constrained_Ok_within. eauto.
  - destruct v; try (intros H; right; by eapply IH).
    intros [= <-]. by left.
  - destruct v; try done.
    + intros H. apply model_validate_with_Ok in H as (_ & _ & ->).
      do 2 eexists. split; [done|]. apply issubclass_refl.
    + destruct (issubclass c0 c) eqn:E; [|done]. intros [= <-]. eauto.
Qed.

(** A validated value passes the same validation unchanged. *)
Lemma validate_idempotent s v a : validate s v = Ok a → validate s a = Ok a.
Proof.
  revert v a.
  induction s as [ | cs | cs | | | d cs | s IH | c fs]; intros v a; simpl.
  - destruct v; try done. by intros [= <-].
  - destruct v; try done.
    + destruct (str_as_int s); [done|].
      intros [-> Hw]%constrained_Ok_within. by apply constrained_within.
    + intros [-> Hw]%constrained_Ok_within. by apply constrained_within.
    + destruct (float_as_int x); [done|].
      intros [-> Hw]%constrained_Ok_within. by apply constrained_within.
  - destruct v; try done.
    + destruct (str_as_float s); [done|].
      intros [-> Hw]%constrained_Ok_within. by apply constrained_within.
    + destruct (int_as_float n); [done|].
      intros [-> Hw]%constrained_Ok_within. by apply constrained_within.
    + intros [-> Hw]%constrained_Ok_within. by apply constrained_within.
  - destruct v; try (by intros [= <-]);
      (destruct (enum_by_value _); [|done]; by intros [= <-]).
  - destruct v; try done. by intros [= <-].
  - destruct v; try done. case_bool_decide as Hd; [|done]. intros H.
    pose proof H as [-> _]%constrained_Ok_within.
    by rewrite bool_decide_eq_true_2.
  - intros H. assert (validate s a = Ok a ∨ a = VNone) as [H'| ->].
    { destruct v; try (left; by eapply IH). injection H as <-. by right. }
    + by destruct a.
    + done.
  - destruct v; try done.
    + intros H. apply model_validate_with_Ok in H as (_ & _ & ->).
      by rewrite issubclass_refl.
    + destruct (issubclass c0 c) eqn:E; [|done]. intros [= <-]. by rewrite E.
Qed.

Lemma validate_fields_app validator (kw : kwargs) fs1 fs2 :
  validate_fields validator kw (fs1 ++ fs2) =
  (((validate_fields validator kw fs1).1 ++ (validate_fields validator kw fs2).1)%list,
   ((validate_fields validator kw fs1).2 ++ (validate_fields validator kw fs2).2)%list).
Proof.
  induction fs1 as [|f fs1 IH].
  - simpl. by destruct (validate_fields validator kw fs2).
  - rewrite <- app_comm_cons, !validate_fields_cons, IH.
    destruct (validate_fields validator kw fs1) as [e1 a1].
    destruct (validate_fields validator kw fs2) as [e2 a2]. simpl.
    destruct (validate_field validator kw f); simpl; [done|].
    by rewrite app_assoc.
Qed.

(** The attributes of an instance are the validated fields, one per
    declared field, in declaration order. *)
Lemma validate_fields_attrs (kw : kwargs) fs :
  (∀ f, f ∈ fs → is_ok (validate_field validate kw f)) →
  Forall2 (λ f ka, ka.1 = field_name f ∧ validate_field validate kw f = Ok ka.2)
    fs (validate_fields validate kw fs).2.
Proof.
  induction fs as [|f fs IH]; intros Hall; [constructor|].
  rewrite validate_fields_cons.
  destruct (validate_fields validate kw fs) as [errs attrs]. simpl in IH.
  assert (is_ok (validate_field validate kw f)) as Hf by (apply Hall; left).
  destruct (validate_field validate kw f) as [a|] eqn:E; [|done]. simpl.
  constructor; [done|]. apply IH. intros g Hg. apply Hall. by right.
Qed.

Lemma construct_Ok_attrs c (kw : kwargs) obj :
  construct c kw = Ok obj →
  ∃ attrs, obj = VModel c attrs ∧
    Forall2 (λ f ka, ka.1 = field_name f ∧ validate_field validate kw f = Ok ka.2)
      (model_fields c) attrs.
Proof.
  intros H.
  assert (is_ok (construct c kw)) as Hok by by rewrite H.
  apply model_validate_ok in Hok as [Hf _].
  apply model_validate_Ok in H. eexists. split; [done|].
  by apply validate_fields_attrs.
Qed.

Lemma model_fields_NoDup c : NoDup (field_name <$> model_fields c).
Proof. destruct c; apply (bool_decide_unpack _); vm_compute; exact I. Qed.

Lemma lookup_attr_Forall2 {R : FieldInfo schema → value → Prop} fs attrs f :
  Forall2 (λ f ka, ka.1 = field_name f ∧ R f ka.2) fs attrs →
  NoDup (field_name <$> fs) → f ∈ fs →
  ∃ a, lookup_attr (field_name f) attrs = Some a ∧ R f a.
Proof.
  induction 1 as [|g [k a] fs attrs [Hk HR] Hall IH]; intros Hnd Hf.
  { by apply elem_of_nil in Hf. }
  simpl in *. subst k.
  apply NoDup_cons in Hnd as [Hg Hnd].
  apply elem_of_cons in Hf as [->|Hf].
  - exists a. by rewrite String.eqb_refl.
  - destruct (String.eqb (field_name g) (field_name f)) eqn:E.
    + apply String.eqb_eq in E. destruct Hg. rewrite E.
      apply list_elem_of_fmap. by exists f.
    + by apply IH.
Qed.

Lemma defaults_stored c f d :
  f ∈ model_fields c → field_default f = Some d →
  stored (annotation f) d ∧ validate (annotation f) d = Ok d.
Proof.
  intros Hf Hd.
  assert (validate (annotation f) d = Ok d) as Hv.
  { destruct c; vm_compute in Hf;
      repeat (apply elem_of_cons in Hf as [->|Hf]);
      try (by apply elem_of_nil in Hf);
      simpl in Hd; try done; injection Hd as <-; reflexivity. }
  split; [by eapply validate_stored|done].
Qed.

Lemma validate_field_stored c (kw : kwargs) f a :
  f ∈ model_fields c → validate_field validate kw f = Ok a →
  stored (annotation f) a ∧ validate (annotation f) a = Ok a.
Proof.
  intros Hf. unfold validate_field.
  destruct (field_lookup f kw) as [[k v]|].
  - intros H%nested_Ok. split; [by eapply validate_stored|by eapply validate_idempotent].
  - destruct (field_default f) as [d|] eqn:Hd; [|done].
    intros [= <-]. by apply (defaults_stored c).
Qed.

Lemma construct_getattr_stored c (kw : kwargs) obj f :
  construct c kw = Ok obj → f ∈ model_fields c →
  ∃ a, getattr obj (field_name f) = Some a ∧ stored (annotation f) a
       ∧ validate (annotation f) a = Ok a.
Proof.
  intros Hc Hf. destruct (construct_Ok_attrs c kw obj Hc) as (attrs & -> & Hall).
  destruct (lookup_attr_Forall2 (R := λ f a, validate_field validate kw f = Ok a)
              _ _ f Hall (model_fields_NoDup c) Hf) as (a & Ha & Hv).
  exists a. split; [done|]. by apply (validate_field_stored c kw).
Qed.

Lemma construct_getattr_governed c k s d (kw : kwargs) obj :
  governs (model_fields c) k s d → construct c kw = Ok obj →
  ∃ a, getattr obj k = Some a ∧ stored s a.
Proof.
  intros Hg Hc.
  destruct (governs_exists _ _ _ _ Hg) as (f & Hf & <- & _ & <- & _).
  destruct (construct_getattr_stored c kw obj f Hc Hf) as (a & ? & ? & _).
  eauto.
Qed.

Lemma construct_Ok_names c (kw : kwargs) attrs :
  construct c kw = Ok (VModel c attrs) → attrs.*1 = field_name <$> model_fields c.
Proof.
  intros Hc. destruct (construct_Ok_attrs c kw _ Hc) as (attrs' & [= <-] & Hall).
  clear Hc. induction Hall as [|f [k a] fs l [Hk _] _ IH]; [done|].
  simpl in *. by f_equal.
Qed.

(** X2.  Every attribute of an instance is of its declared type: for every
    class, every successful construction and every declared field, the
    attribute read under the field's name satisfies the annotation of the
    field (type, bounds, [None] only if optional, an instance where a
    model is declared), and validates again to itself. *)
Theorem instance_attributes_stored (c : class) (kw : kwargs) (obj : value) :
  construct c kw = Ok obj →
  ∀ f, f ∈ model_fields c →
    ∃ a, getattr obj (field_name f) = Some a ∧ stored (annotation f) a
         ∧ validate (annotation f) a = Ok a.
Proof. intros Hc f Hf. by apply (construct_getattr_stored c kw). Qed.

Lemma Bus_family_bustype c :
  issubclass c Bus = true →
  governs (model_fields c) "bustype" (Optional enum_schema) (Some VNone).
Proof. intros [->|[->| ->]]%Bus_family; solve_governs. Qed.

Lemma Bus_family_area c :
  issubclass c Bus = true →
  governs (model_fields c) "area"
    (Optional (model_schema Area Area_fields)) (Some VNone).
Proof. intros [->|[->| ->]]%Bus_family; solve_governs. Qed.

Lemma Bus_family_load_zone c :
  issubclass c Bus = true →
  governs (model_fields c) "load_zone"
    (Optional (model_schema LoadZone LoadZone_fields)) (Some VNone).
Proof. intros [->|[->| ->]]%Bus_family; solve_governs. Qed.

Lemma issubclass_Area c : issubclass c Area = true → c = Area.
Proof. by destruct c. Qed.

Lemma issubclass_LoadZone c : issubclass c LoadZone = true → c = LoadZone.
Proof. by destruct c. Qed.

(** X3.  What a bus holds.  Every instance a constructor of the Bus family
    returns, whatever the arguments, has a [number] that is an integer
    [>= 1]; its [bustype] is [None] or a bus type, its [area] [None] or an
    Area instance, its [load_zone] [None] or a LoadZone instance, its
    [voltage_limits] [None] or a MinMax pair, its [base_voltage] [None] or
    a strictly positive quantity in a voltage unit, and its [magnitude]
    [None] or a float [>= 0]. *)
Theorem Bus_instance_invariant (c : class) (kw : kwargs) (obj : value) :
  issubclass c Bus = true → construct c kw = Ok obj →
  (∃ n, getattr obj "number" = Some (VInt n) ∧ (1 <= n)%Z)
  ∧ (getattr obj "bustype" = Some VNone ∨
     ∃ e, getattr obj "bustype" = Some (VEnum e))
  ∧ (getattr obj "area" = Some VNone ∨
     ∃ attrs, getattr obj "area" = Some (VModel Area attrs))
  ∧ (getattr obj "load_zone" = Some VNone ∨
     ∃ attrs, getattr obj "load_zone" = Some (VModel LoadZone attrs))
  ∧ (getattr obj "voltage_limits" = Some VNone ∨
     ∃ m, getattr obj "voltage_limits" = Some (VMinMax m))
  ∧ (getattr obj "base_voltage" = Some VNone ∨
     ∃ q, getattr obj "base_voltage" = Some (VQuantity q) ∧
          (0 < magnitude q)%Q ∧ ureg.dimensionality (units q) = voltage_dim)
  ∧ (getattr obj "magnitude" = Some VNone ∨
     ∃ x, getattr obj "magnitude" = Some (VFloat x) ∧ (0 <= x)%Q).
Proof.
  intros Hc Hobj. repeat split.
  - destruct (construct_getattr_governed c _ _ _ kw obj
                (Bus_family_number c Hc) Hobj) as (a & Ha & n & -> & Hw).
    exists n. split; [done|].
    destruct Hw as (_ & _ & _ & Hgt). specialize (Hgt 0%Q eq_refl).
    change (inject_Z 0 < inject_Z n)%Q in Hgt. rewrite <- Zlt_Qlt in Hgt. lia.
  - destruct (construct_getattr_governed c _ _ _ kw obj
                (Bus_family_bustype c Hc) Hobj) as (a & Ha & [->|[e ->]]); eauto.
  - destruct (construct_getattr_governed c _ _ _ kw obj
                (Bus_family_area c Hc) Hobj)
      as (a & Ha & [->|(c' & attrs & -> & ->%issubclass_Area)]); eauto.
  - destruct (construct_getattr_governed c _ _ _ kw obj
                (Bus_family_load_zone c Hc) Hobj)
      as (a & Ha & [->|(c' & attrs & -> & ->%issubclass_LoadZone)]); eauto.
  - destruct (construct_getattr_governed c _ _ _ kw obj
                (Bus_family_voltage_limits c Hc) Hobj)
      as (a & Ha & [->|[m ->]]); eauto.
  - destruct (construct_getattr_governed c _ _ _ kw obj
                (Bus_family_base_voltage c Hc) Hobj)
      as (a & Ha & [->|(q & -> & Hd & Hw)]); [by left|].
    right. exists q. split; [done|]. split; [|done].
    destruct Hw as (_ & _ & _ & Hgt). by apply Hgt.
  - destruct (construct_getattr_governed c _ _ _ kw obj
                (Bus_family_magnitude c Hc) Hobj)
      as (a & Ha & [->|(x & -> & Hw)]); [by left|].
    right. exists x. split; [done|].
    destruct Hw as (_ & _ & Hge & _). by apply Hge.
Qed.


(** X5.  What an area and a load zone hold: in every Area and LoadZone
    instance [peak_active_power] and [peak_reactive_power] are floats
    [>= 0]; in every Area instance [load_response] is a float. *)
Theorem aggregation_instance_invariant (c : class) (kw : kwargs) (obj : value) :
  c = Area ∨ c = LoadZone → construct c kw = Ok obj →
  (∃ p, getattr obj "peak_active_power" = Some (VFloat p) ∧ (0 <= p)%Q)
  ∧ (∃ p, getattr obj "peak_reactive_power" = Some (VFloat p) ∧ (0 <= p)%Q)
  ∧ (c = Area → ∃ r, getattr obj "load_response" = Some (VFloat r)).
Proof.
  intros Hc Hobj. split; [|split].
  - destruct (construct_getattr_governed c _ _ _ kw obj
                (aggregation_peak_power c "peak_active_power" Hc (or_introl eq_refl))
                Hobj) as (a & Ha & x & -> & Hw).
    exists x. split; [done|]. destruct Hw as (_ & _ & Hge & _). by apply Hge.
  - destruct (construct_getattr_governed c _ _ _ kw obj
                (aggregation_peak_power c "peak_reactive_power" Hc (or_intror eq_refl))
                Hobj) as (a & Ha & x & -> & Hw).
    exists x. split; [done|]. destruct Hw as (_ & _ & Hge & _). by apply Hge.
  - intros ->.
    destruct (construct_getattr_governed Area _ _ _ kw obj
                Area_load_response_governs Hobj) as (a & Ha & x & -> & _).
    eauto.
Qed.

(** X6.  What an arc holds: in every Arc instance [name] is a string, and
    [from_to] and [to_from] are instances of Bus, DCBus or ACBus (a bus
    given as a mapping has become a Bus instance). *)
Theorem Arc_instance_invariant (kw : kwargs) (obj : value) :
  construct Arc kw = Ok obj →
  (∃ s, getattr obj "name" = Some (VStr s))
  ∧ (∃ c attrs, getattr obj "from_to" = Some (VModel c attrs) ∧
                (c = Bus ∨ c = DCBus ∨ c = ACBus))
  ∧ (∃ c attrs, getattr obj "to_from" = Some (VModel c attrs) ∧
                (c = Bus ∨ c = DCBus ∨ c = ACBus)).
Proof.
  intros Hobj. split; [|split].
  - destruct (construct_getattr_stored Arc kw obj
                {| field_name := "name"; annotation := str;
                   field_default := Some (VStr EmptyString);
                   alias := None; frozen := true; exclude := true |} Hobj)
      as (a & Ha & [s ->] & _); [vm_compute; left|]. eauto.
  - destruct (construct_getattr_stored Arc kw obj
                {| field_name := "from_to"; annotation := model_schema Bus Bus_fields;
                   field_default := required;
                   alias := Some "from"; frozen := false; exclude := false |} Hobj)
      as (a & Ha & (c & attrs & -> & Hc) & _); [vm_compute; right; left|].
    exists c, attrs. split; [done|]. by apply Bus_family.
  - destruct (construct_getattr_stored Arc kw obj
                {| field_name := "to_from"; annotation := model_schema Bus Bus_fields;
                   field_default := required;
                   alias := Some "to"; frozen := false; exclude := false |} Hobj)
      as (a & Ha & (c & attrs & -> & Hc) & _); [vm_compute; right; right; left|].
    exists c, attrs. split; [done|]. by apply Bus_family.
Qed.

(** ** Rebuilding and dumping an instance *)

Lemma no_alias c f : c ≠ Arc → f ∈ model_fields c → alias f = None.
Proof.
  intros Hc Hf. destruct c; try done; vm_compute in Hf;
    repeat (apply elem_of_cons in Hf as [->|Hf]);
    try (by apply elem_of_nil in Hf); reflexivity.
Qed.

Lemma Forall2_attrs_unique {R1 R2 : FieldInfo schema → value → Prop} fs l1 l2 :
  Forall2 (λ f ka, ka.1 = field_name f ∧ R1 f ka.2) fs l1 →
  Forall2 (λ f ka, ka.1 = field_name f ∧ R2 f ka.2) fs l2 →
  (∀ f a b, f ∈ fs → R1 f a → R2 f b → a = b) →
  l1 = l2.
Proof.
  intros H1. revert l2.
  induction H1 as [|f [k a] fs l1 [Hk Ha] _ IH]; intros l2 H2 Hfun.
  - by inversion H2.
  - inversion H2 as [|? [k' b] ? l2' [Hk' Hb] H2']; subst. simpl in *.
    f_equal.
    + f_equal; [congruence|]. apply (Hfun f); [left|done..].
    + apply IH; [done|]. intros g x y Hg. apply Hfun. by right.
Qed.

Lemma lookup_attrs_map (attrs : list (string * value)) k a :
  NoDup attrs.*1 → lookup_attr k attrs = Some a →
  (list_to_map attrs : kwargs) !! k = Some a.
Proof.
  intros Hnd Ha. apply elem_of_list_to_map_1; [done|].
  clear Hnd. induction attrs as [|[k' a'] attrs IH]; [done|]. simpl in Ha.
  destruct (String.eqb k' k) eqn:E.
  - apply String.eqb_eq in E. simplify_eq. left.
  - right. by apply IH.
Qed.

(** X7.  An instance can be rebuilt from its own attributes: for every
    class but Arc, calling the constructor again with the attributes of an
    instance it returned (each under its field name) returns the same
    instance. *)
Theorem construct_from_attributes (c : class) (kw : kwargs) (obj : value) :
  c ≠ Arc → construct c kw = Ok obj → construct c (attributes obj) = Ok obj.
Proof.
  intros Hc Hobj.
  destruct (construct_Ok_attrs c kw obj Hobj) as (attrs & -> & Hall).
  pose proof (construct_Ok_names c kw attrs Hobj) as Hn.
  pose proof (model_fields_NoDup c) as Hnd. simpl.
  assert (∀ f, f ∈ model_fields c → ∀ a,
            validate_field validate kw f = Ok a →
            validate_field validate (list_to_map attrs) f = Ok a) as Hre.
  { intros f Hf a Ha.
    destruct (lookup_attr_Forall2 (R := λ f a, validate_field validate kw f = Ok a)
                _ _ f Hall Hnd Hf) as (a' & Hl & Ha').
    assert (a' = a) as -> by congruence.
    apply lookup_attrs_map in Hl; [|by rewrite Hn].
    destruct (validate_field_stored c kw f a Hf Ha) as [_ Hv].
    unfold validate_field, field_lookup, field_key.
    rewrite (no_alias c f Hc Hf). simpl. by rewrite Hl, Hv. }
  assert (is_ok (construct c (list_to_map attrs))) as Hok.
  { apply model_validate_ok. split.
    - intros f Hf.
      destruct (lookup_attr_Forall2 (R := λ f a, validate_field validate kw f = Ok a)
                  _ _ f Hall Hnd Hf) as (a & _ & Ha).
      by rewrite (Hre f Hf a Ha).
    - intros k [a Hk]. apply elem_of_list_to_map_2 in Hk.
      assert (k ∈ field_name <$> model_fields c) as Hin.
      { rewrite <- Hn. apply list_elem_of_fmap. by exists (k, a). }
      apply list_elem_of_fmap in Hin as (f & -> & Hf).
      apply elem_of_used_keys.
      destruct (lookup_attr_Forall2 (R := λ f a, validate_field validate kw f = Ok a)
                  _ _ f Hall Hnd Hf) as (a' & Hl & Ha').
      apply lookup_attrs_map in Hl; [|by rewrite Hn].
      exists f, a'. split; [done|].
      unfold field_lookup, field_key. rewrite (no_alias c f Hc Hf). simpl.
      by rewrite Hl. }
  apply is_ok_Ok in Hok as [obj' Hobj'].
  rewrite Hobj'. f_equal.
  destruct (construct_Ok_attrs c _ obj' Hobj') as (attrs' & -> & Hall').
  f_equal. symmetry.
  apply (Forall2_attrs_unique
           (R1 := λ f a, validate_field validate kw f = Ok a)
           (R2 := λ f a, validate_field validate (list_to_map attrs) f = Ok a)
           _ _ _ Hall Hall').
  intros f a b Hf Ha Hb. apply (Hre f Hf) in Ha. congruence.
Qed.

(** ** Subclasses *)

Lemma DCBus_fields_Bus : model_fields DCBus = model_fields Bus.
Proof. reflexivity. Qed.

Lemma ACBus_fields_Bus :
  model_fields ACBus =
  (model_fields Bus ++
   [ Field "angle"
       (Annotated (Optional float) (merge (Field_gt (- float_1_571)) (Field_lt float_1_571)))
       (Some VNone) ])%list.
Proof. reflexivity. Qed.

(** X9.  DCBus adds nothing to Bus: for every mapping of arguments, the
    DCBus constructor fails with the same ValidationError as the Bus
    constructor, or succeeds with the same attributes, the class of the
    instance being the only difference. *)
Theorem DCBus_same_as_Bus (kw : kwargs) :
  (∀ errs, construct DCBus kw = Invalid errs ↔ construct Bus kw = Invalid errs)
  ∧ (∀ attrs, construct DCBus kw = Ok (VModel DCBus attrs)
              ↔ construct Bus kw = Ok (VModel Bus attrs)).
Proof.
  unfold construct, model_validate, model_validate_with.
  rewrite DCBus_fields_Bus.
  destruct (validate_fields validate kw (model_fields Bus)) as [errs attrs].
  destruct (errs ++ extra_errors kw (model_fields Bus))%list; split;
    intros; split; congruence.
Qed.

(** X10.  ACBus is Bus with [angle]: for every mapping of arguments that
    has no [angle], the ACBus constructor fails with the same
    ValidationError as the Bus constructor, or succeeds with the
    attributes of the Bus followed by [angle = None]. *)
Theorem ACBus_extends_Bus (kw : kwargs) :
  kw !! "angle" = None →
  (∀ errs, construct ACBus kw = Invalid errs ↔ construct Bus kw = Invalid errs)
  ∧ (∀ attrs, construct ACBus kw = Ok (VModel ACBus (attrs ++ [("angle", VNone)])%list)
              ↔ construct Bus kw = Ok (VModel Bus attrs)).
Proof.
  intros Hangle.
  assert (field_lookup
            (Field "angle" (Annotated (Optional float)
               (merge (Field_gt (- float_1_571)) (Field_lt float_1_571))) (Some VNone)) kw
          = None) as Hl.
  { unfold field_lookup. change (field_key _) with "angle".
    change (field_name _) with "angle". by rewrite Hangle. }
  unfold construct, model_validate, model_validate_with.
  rewrite ACBus_fields_Bus, validate_fields_app.
  assert (extra_errors kw (model_fields Bus ++
            [Field "angle" (Annotated (Optional float)
               (merge (Field_gt (- float_1_571)) (Field_lt float_1_571))) (Some VNone)])%list
          = extra_errors kw (model_fields Bus)) as ->.
  { unfold extra_errors, used_keys. rewrite omap_app.
    cbn [omap list_omap]. rewrite Hl. simpl. by rewrite app_nil_r. }
  assert (validate_fields validate kw
            [Field "angle" (Annotated (Optional float)
               (merge (Field_gt (- float_1_571)) (Field_lt float_1_571))) (Some VNone)]
          = ([], [("angle", VNone)])) as ->.
  { cbn [validate_fields]. unfold validate_field. by rewrite Hl. }
  destruct (validate_fields validate kw (model_fields Bus)) as [errs attrs].
  cbn [fst snd]. rewrite app_nil_r.
  destruct (errs ++ extra_errors kw (model_fields Bus))%list; split;
    intros; split; try congruence.
  intros [= H]. by apply app_inv_tail in H as ->.
Qed.

(** ** Optional fields *)

Lemma validate_fields_attrs_ext (kw1 kw2 : kwargs) fs :
  (∀ f a, f ∈ fs →
     validate_field validate kw1 f = Ok a ↔ validate_field validate kw2 f = Ok a) →
  (validate_fields validate kw1 fs).2 = (validate_fields validate kw2 fs).2.
Proof.
  induction fs as [|f fs IH]; intros Hext; [done|].
  rewrite !validate_fields_cons.
  assert ((validate_fields validate kw1 fs).2 = (validate_fields validate kw2 fs).2)
    as Hrec by (apply IH; intros g a Hg; apply Hext; by right).
  destruct (validate_fields validate kw1 fs) as [e1 a1].
  destruct (validate_fields validate kw2 fs) as [e2 a2]. simpl in Hrec. subst a2.
  destruct (validate_field validate kw1 f) as [a|es1] eqn:E1.
  - apply Hext in E1; [|left]. by rewrite E1.
  - destruct (validate_field validate kw2 f) as [b|es2] eqn:E2; [|done].
    apply Hext in E2; [|left]. congruence.
Qed.

Lemma validate_field_lookup_ext (kw1 kw2 : kwargs) f a :
  field_lookup f kw1 = field_lookup f kw2 →
  validate_field validate kw1 f = Ok a ↔ validate_field validate kw2 f = Ok a.
Proof.
  intros Hl. unfold validate_field. rewrite Hl.
  destruct (field_lookup f kw2) as [[k v]|]; [done|].
  by destruct (field_default f).
Qed.

(** X11.  Passing [None] is omitting: for every class of the Bus family,
    each of its optional fields and every mapping of the other arguments,
    the construction with the field set to [None] returns an instance
    exactly when the construction without the field does, and it is the
    same instance. *)
Theorem explicit_None_is_omission (c : class) (k : string) (kw : kwargs) (obj : value) :
  issubclass c Bus = true →
  k ∈ ["bustype"; "area"; "load_zone"; "voltage_limits"; "base_voltage";
       "magnitude"] ∨ (c = ACBus ∧ k = "angle") →
  construct c (<[k := VNone]> kw) = Ok obj ↔ construct c (delete k kw) = Ok obj.
Proof.
  intros Hc Hk. destruct (Bus_family_optional c k Hc Hk) as [s Hg].
  assert (validate s VNone = Ok VNone) as Hv.
  { destruct (governs_exists _ _ _ _ Hg) as (f & Hf & _ & _ & <- & Hd).
    by apply (defaults_stored c f VNone Hf Hd). }
  assert (is_ok (construct c (<[k := VNone]> kw))
          ↔ is_ok (construct c (delete k kw))) as Hok.
  { unfold construct.
    rewrite (model_validate_insert_ok c _ k s _ VNone kw Hg).
    rewrite (model_validate_delete_ok c _ k s _ kw Hg).
    rewrite Hv. simpl. split; intros (_ & ? & ?); eauto. }
  assert ((validate_fields validate (<[k := VNone]> kw) (model_fields c)).2
          = (validate_fields validate (delete k kw) (model_fields c)).2) as Hattrs.
  { apply validate_fields_attrs_ext. intros f a Hf.
    destruct (governs_field _ _ _ _ _ Hg Hf)
      as [(Hn & Ha & Hs & Hd)|[Hn Ha]].
    - rewrite (validate_field_own f k s VNone kw Hn Ha Hs), Hv.
      by rewrite (validate_field_own_delete f k VNone kw Hn Ha Hd).
    - apply validate_field_lookup_ext. by apply field_lookup_other. }
  split; intros H.
  - assert (is_ok (construct c (delete k kw))) as [obj' Hobj']%is_ok_Ok
      by (apply Hok; by rewrite H).
    rewrite Hobj'. apply model_validate_Ok in H, Hobj'. congruence.
  - assert (is_ok (construct c (<[k := VNone]> kw))) as [obj' Hobj']%is_ok_Ok
      by (apply Hok; by rewrite H).
    rewrite Hobj'. apply model_validate_Ok in H, Hobj'. congruence.
Qed.

(** ** Field by field *)

Lemma construct_failing_field c (kw : kwargs) f es :
  f ∈ model_fields c → validate_field validate kw f = Invalid es →
  ∃ errs, construct c kw = Invalid errs ∧ ∀ e, e ∈ es → e ∈ errs.
Proof.
  intros Hf Hes. unfold construct.
  destruct (model_validate c (model_fields c) kw) as [obj|errs] eqn:E.
  - assert (is_ok (model_validate c (model_fields c) kw)) as Hok by by rewrite E.
    apply model_validate_ok in Hok as [Hall _]. specialize (Hall f Hf).
    by rewrite Hes in Hall.
  - exists errs. split; [done|].
    apply model_validate_Invalid in E as (_ & Hall & _).
    intros e He. apply (Hall f e Hf). by rewrite Hes.
Qed.

Lemma validate_magnitude (x : Q) :
  validate (Optional NonNegativeFloat) (VFloat x) =
  if Qle_bool 0 x then Ok (VFloat x)
  else Invalid [error [] (greater_than_equal 0) (VFloat x)].
Proof. apply validate_NonNegativeFloat. Qed.

(** X12.  [magnitude] of a bus is non-negative: for every real [x], every
    class of the Bus family and every choice of the other arguments, a
    negative [x] makes the constructor raise a ValidationError located at
    [magnitude]; with the other arguments valid the construction succeeds
    exactly when [0 <= x], zero included, and stores [x]. *)
Theorem Bus_magnitude_non_negative (c : class) (kw : kwargs) (x : Q) :
  issubclass c Bus = true →
  ((x < 0)%Q →
     ∃ errs, construct c (<["magnitude" := VFloat x]> kw) = Invalid errs ∧
             error ["magnitude"] (greater_than_equal 0) (VFloat x) ∈ errs)
  ∧ (valid_except c "magnitude" kw →
     (is_ok (construct c (<["magnitude" := VFloat x]> kw)) ↔ (0 <= x)%Q) ∧
     (∀ obj, construct c (<["magnitude" := VFloat x]> kw) = Ok obj →
        getattr obj "magnitude" = Some (VFloat x))).
Proof.
  intros Hc. pose proof (Bus_family_magnitude c Hc) as Hg.
  pose proof (validate_magnitude x) as Hv. split.
  - intros Hx.
    destruct (construct_field_Invalid c "magnitude" _ _ (VFloat x)
                [error [] (greater_than_equal 0) (VFloat x)] kw Hg)
      as (errs & He & _ & Hin).
    { rewrite Hv. by apply Qle_bool_gt in Hx as ->. }
    exists errs. split; [done|].
    apply (Hin (error [] (greater_than_equal 0) (VFloat x))). by left.
  - intros Hrest.
    pose proof (construct_field_ok c "magnitude" _ _ (VFloat x) kw Hg Hrest) as Hok.
    rewrite Hv in Hok. split.
    + rewrite Hok. destruct (Qle_bool 0 x) eqn:E; simpl.
      * apply Qle_bool_iff in E. tauto.
      * apply Qle_bool_gt in E. split; [done|].
        intros H. exact (Qlt_not_le _ _ E H).
    + intros obj Hobj.
      apply (construct_getattr c "magnitude" _ _ (VFloat x) (VFloat x) obj kw Hg);
        [|done].
      rewrite Hv. destruct (Qle_bool 0 x); [done|].
      exfalso. apply Hok. by rewrite Hobj.
Qed.

(** X13.  The defaults of an area and of a load zone: with the other
    arguments valid, constructing an Area or a LoadZone without
    [peak_active_power], or without [peak_reactive_power], succeeds and the
    field reads [0.0]; the same holds for [load_response] of an Area. *)
Theorem aggregation_defaults_zero (c : class) (k : string) (kw : kwargs) :
  (c = Area ∨ c = LoadZone) ∧ (k = "peak_active_power" ∨ k = "peak_reactive_power")
  ∨ (c = Area ∧ k = "load_response") →
  valid_except c k kw →
  ∃ obj, construct c (delete k kw) = Ok obj ∧ getattr obj k = Some (VFloat 0.0).
Proof.
  intros Hck Hrest.
  assert (∃ s, governs (model_fields c) k s (Some (VFloat 0.0))) as [s Hg].
  { destruct Hck as [[Hc Hk]|[-> ->]].
    - eexists. by apply aggregation_peak_power.
    - eexists. apply Area_load_response_governs. }
  pose proof (construct_omit_ok c k s _ kw Hg Hrest) as [obj Hobj]%is_ok_Ok.
  exists obj. split; [done|].
  by apply (construct_omit_getattr c k s _ obj kw Hg).
Qed.

Lemma validate_optional_model_instance c fs c' attrs :
  validate (Optional (model_schema c fs)) (VModel c' attrs) =
  if issubclass c' c then Ok (VModel c' attrs)
  else Invalid [error [] (model_type c) (VModel c' attrs)].
Proof. done. Qed.

(** X14.  [area] takes an Area and [load_zone] a LoadZone, and nothing
    else among the instances: for every class of the Bus family, with the
    other arguments valid, passing an instance of class [c'] as [area]
    succeeds exactly when [c'] is Area, and as [load_zone] exactly when
    [c'] is LoadZone; the bus then holds the very instance it was given.
    An instance of another class is reported under the field with the
    reason "not an instance of Area" (resp. LoadZone). *)
Theorem Bus_area_load_zone_class
    (c : class) (kw : kwargs) (c' : class) (attrs : list (string * value)) :
  issubclass c Bus = true →
  (valid_except c "area" kw →
     (is_ok (construct c (<["area" := VModel c' attrs]> kw)) ↔ c' = Area) ∧
     (∀ obj, construct c (<["area" := VModel c' attrs]> kw) = Ok obj →
        getattr obj "area" = Some (VModel c' attrs)))
  ∧ (valid_except c "load_zone" kw →
     (is_ok (construct c (<["load_zone" := VModel c' attrs]> kw)) ↔ c' = LoadZone) ∧
     (∀ obj, construct c (<["load_zone" := VModel c' attrs]> kw) = Ok obj →
        getattr obj "load_zone" = Some (VModel c' attrs)))
  ∧ (c' ≠ Area →
     ∃ errs, construct c (<["area" := VModel c' attrs]> kw) = Invalid errs ∧
             error ["area"] (model_type Area) (VModel c' attrs) ∈ errs)
  ∧ (c' ≠ LoadZone →
     ∃ errs, construct c (<["load_zone" := VModel c' attrs]> kw) = Invalid errs ∧
             error ["load_zone"] (model_type LoadZone) (VModel c' attrs) ∈ errs).
Proof.
  intros Hc.
  pose proof (Bus_family_area c Hc) as Ha.
  pose proof (Bus_family_load_zone c Hc) as Hz.
  pose proof (validate_optional_model_instance Area Area_fields c' attrs) as Hva.
  pose proof (validate_optional_model_instance LoadZone LoadZone_fields c' attrs)
    as Hvz.
  split; [|split; [|split]].
  - intros Hrest.
    pose proof (construct_field_ok c "area" _ _ (VModel c' attrs) kw Ha Hrest) as Hok.
    rewrite Hva in Hok. split.
    + rewrite Hok. destruct (issubclass c' Area) eqn:E; simpl.
      * apply issubclass_Area in E. tauto.
      * split; [done|]. intros ->. done.
    + intros obj Hobj.
      apply (construct_getattr c "area" _ _ (VModel c' attrs) _ obj kw Ha);
        [|done].
      rewrite Hva. destruct (issubclass c' Area); [done|].
      exfalso. apply Hok. by rewrite Hobj.
  - intros Hrest.
    pose proof (construct_field_ok c "load_zone" _ _ (VModel c' attrs) kw Hz Hrest)
      as Hok.
    rewrite Hvz in Hok. split.
    + rewrite Hok. destruct (issubclass c' LoadZone) eqn:E; simpl.
      * apply issubclass_LoadZone in E. tauto.
      * split; [done|]. intros ->. done.
    + intros obj Hobj.
      apply (construct_getattr c "load_zone" _ _ (VModel c' attrs) _ obj kw Hz);
        [|done].
      rewrite Hvz. destruct (issubclass c' LoadZone); [done|].
      exfalso. apply Hok. by rewrite Hobj.
  - intros Hne.
    destruct (construct_field_Invalid c "area" _ _ (VModel c' attrs)
                [error [] (model_type Area) (VModel c' attrs)] kw Ha)
      as (errs & He & _ & Hin).
    { rewrite Hva. destruct (issubclass c' Area) eqn:E; [|done].
      by apply issubclass_Area in E. }
    exists errs. split; [done|].
    apply (Hin (error [] (model_type Area) (VModel c' attrs))). by left.
  - intros Hne.
    destruct (construct_field_Invalid c "load_zone" _ _ (VModel c' attrs)
                [error [] (model_type LoadZone) (VModel c' attrs)] kw Hz)
      as (errs & He & _ & Hin).
    { rewrite Hvz. destruct (issubclass c' LoadZone) eqn:E; [|done].
      by apply issubclass_LoadZone in E. }
    exists errs. split; [done|].
    apply (Hin (error [] (model_type LoadZone) (VModel c' attrs))). by left.
Qed.

(** X15.  An area or a load zone given as a mapping is built in place:
    for every class of the Bus family, passing a mapping [kw'] as [area]
    (resp. [load_zone]) runs the Area (resp. LoadZone) constructor on it.
    If that constructor fails, the bus constructor fails and reports each
    of its errors under [area] (resp. [load_zone]); if it returns an
    instance and the other arguments are valid, the bus holds that
    instance. *)
Theorem Bus_nested_mapping (c d : class) (k : string) (kw kw' : kwargs) :
  issubclass c Bus = true →
  (k = "area" ∧ d = Area) ∨ (k = "load_zone" ∧ d = LoadZone) →
  (∀ es, construct d kw' = Invalid es →
     ∃ errs, construct c (<[k := VDict kw']> kw) = Invalid errs ∧
             ∀ e, e ∈ es → at_loc k e ∈ errs)
  ∧ (valid_except c k kw → ∀ a, construct d kw' = Ok a →
     ∃ obj, construct c (<[k := VDict kw']> kw) = Ok obj ∧
            getattr obj k = Some a).
Proof.
  intros Hc Hkd.
  assert (governs (model_fields c) k
            (Optional (model_schema d (model_fields d))) (Some VNone)) as Hg.
  { destruct Hkd as [[-> ->]|[-> ->]];
      [by apply Bus_family_area | by apply Bus_family_load_zone]. }
  assert (validate (Optional (model_schema d (model_fields d))) (VDict kw')
          = construct d kw') as Hv by done.
  split.
  - intros es Hes.
    destruct (construct_field_Invalid c k _ _ (VDict kw') es kw Hg)
      as (errs & He & _ & Hin); [by rewrite Hv|]. eauto.
  - intros Hrest a Ha.
    assert (is_ok (construct c (<[k := VDict kw']> kw))) as [obj Hobj]%is_ok_Ok.
    { apply (construct_field_ok c k _ _ (VDict kw') kw Hg Hrest).
      by rewrite Hv, Ha. }
    exists obj. split; [done|].
    apply (construct_getattr c k _ _ (VDict kw') a obj kw Hg); [|done].
    by rewrite Hv.
Qed.

(** X16.  [number] must be given: for every class of the Bus family, a
    mapping without [number] makes the constructor raise a ValidationError
    with a "missing" line located at [number], and so does no default
    stand in for it; [number = None] is rejected as not an integer. *)
Theorem Bus_number_required (c : class) (kw : kwargs) :
  issubclass c Bus = true →
  (kw !! "number" = None →
     ∃ errs, construct c kw = Invalid errs ∧
             error ["number"] missing (VDict kw) ∈ errs)
  ∧ (∃ errs, construct c (<["number" := VNone]> kw) = Invalid errs ∧
             error ["number"] int_type VNone ∈ errs).
Proof.
  intros Hc. pose proof (Bus_family_number c Hc) as Hg. split.
  - intros Hn.
    destruct (governs_exists _ _ _ _ Hg) as (f & Hf & Hname & Ha & _ & Hd).
    destruct (construct_failing_field c kw f
                [error ["number"] missing (VDict kw)] Hf) as (errs & He & Hin).
    { unfold validate_field, field_lookup, field_key.
      rewrite Ha, Hname, Hd. simpl. by rewrite Hn. }
    exists errs. split; [done|]. apply Hin. left.
  - destruct (construct_field_Invalid c "number" _ _ VNone
                [error [] int_type VNone] kw Hg) as (errs & He & _ & Hin);
      [done|].
    exists errs. split; [done|]. apply (Hin (error [] int_type VNone)). left.
Qed.

Lemma Arc_field_from :
  {| field_name := "from_to"; annotation := model_schema Bus Bus_fields;
     field_default := required;
     alias := Some "from"; frozen := false; exclude := false |}
  ∈ model_fields Arc.
Proof. vm_compute. right. left. Qed.

Lemma Arc_field_to :
  {| field_name := "to_from"; annotation := model_schema Bus Bus_fields;
     field_default := required;
     alias := Some "to"; frozen := false; exclude := false |}
  ∈ model_fields Arc.
Proof. vm_compute. right. right. left. Qed.

Lemma Arc_end_missing (f : FieldInfo schema) (kw : kwargs) a :
  f ∈ model_fields Arc → alias f = Some a → field_default f = None →
  kw !! a = None → kw !! field_name f = None →
  ∃ errs, construct Arc kw = Invalid errs ∧ error [a] missing (VDict kw) ∈ errs.
Proof.
  intros Hf Ha Hd Hka Hkn.
  destruct (construct_failing_field Arc kw f [error [a] missing (VDict kw)] Hf)
    as (errs & He & Hin).
  { unfold validate_field, field_lookup, field_key. rewrite Ha, Hd. simpl.
    by rewrite Hka, Hkn. }
  exists errs. split; [done|]. apply Hin. left.
Qed.

(** X17.  Both end points of an arc must be given: a mapping with neither
    [from] nor [from_to] makes the Arc constructor raise a ValidationError
    with a "missing" line located at [from], and a mapping with neither
    [to] nor [to_from] one located at [to]. *)
Theorem Arc_end_points_required (kw : kwargs) :
  (kw !! "from" = None → kw !! "from_to" = None →
     ∃ errs, construct Arc kw = Invalid errs ∧
             error ["from"] missing (VDict kw) ∈ errs)
  ∧ (kw !! "to" = None → kw !! "to_from" = None →
     ∃ errs, construct Arc kw = Invalid errs ∧
             error ["to"] missing (VDict kw) ∈ errs).
Proof.
  split; intros Ha Hn.
  - by apply (Arc_end_missing _ kw "from" Arc_field_from).
  - by apply (Arc_end_missing _ kw "to" Arc_field_to).
Qed.

Lemma Arc_end_supplied (f : FieldInfo schema) (kw : kwargs) a v es :
  f ∈ model_fields Arc → alias f = Some a →
  annotation f = model_schema Bus Bus_fields →
  kw !! a = Some v → validate (model_schema Bus Bus_fields) v = Invalid es →
  ∃ errs, construct Arc kw = Invalid errs ∧ ∀ e, e ∈ es → at_loc a e ∈ errs.
Proof.
  intros Hf Ha Hs Hka Hes.
  destruct (construct_failing_field Arc kw f (at_loc a <$> es) Hf)
    as (errs & He & Hin).
  { unfold validate_field, field_lookup, field_key. rewrite Ha.
    change (default (field_name f) (Some a)) with a.
    by rewrite Hka, Hs, Hes. }
  exists errs. split; [done|]. intros e He'. apply Hin.
  apply list_elem_of_fmap. by exists e.
Qed.

Lemma validate_Bus_not_instance v :
  (∀ d, v ≠ VDict d) → isinstance v Bus = false →
  validate (model_schema Bus Bus_fields) v = Invalid [error [] (model_type Bus) v].
Proof.
  intros Hd Hi. destruct v; try done.
  - by destruct (Hd d).
  - simpl in *. by rewrite Hi.
Qed.

(** X18.  The end points of an arc are buses.  A value given as [from] or
    [to] that is neither a mapping nor an instance of Bus, DCBus or ACBus
    (an Area, an Arc, a number, [None]) makes the Arc constructor raise a
    ValidationError located at that end point with the reason "not an
    instance of Bus".  A mapping given as an end point is passed to the
    Bus constructor, and the errors of that constructor are reported under
    the end point. *)
Theorem Arc_end_points_are_buses (kw : kwargs) (v : value) :
  ((∀ d, v ≠ VDict d) → isinstance v Bus = false →
     (kw !! "from" = Some v →
        ∃ errs, construct Arc kw = Invalid errs ∧
                error ["from"] (model_type Bus) v ∈ errs)
     ∧ (kw !! "to" = Some v →
        ∃ errs, construct Arc kw = Invalid errs ∧
                error ["to"] (model_type Bus) v ∈ errs))
  ∧ (∀ kwb es, v = VDict kwb → construct Bus kwb = Invalid es →
       (kw !! "from" = Some v →
          ∃ errs, construct Arc kw = Invalid errs ∧
                  ∀ e, e ∈ es → at_loc "from" e ∈ errs)
       ∧ (kw !! "to" = Some v →
          ∃ errs, construct Arc kw = Invalid errs ∧
                  ∀ e, e ∈ es → at_loc "to" e ∈ errs)).
Proof.
  split.
  - intros Hd Hi. pose proof (validate_Bus_not_instance v Hd Hi) as Hv.
    split; intros Hk.
    + destruct (Arc_end_supplied _ kw "from" v _ Arc_field_from eq_refl eq_refl Hk Hv)
        as (errs & He & Hin).
      exists errs. split; [done|].
      apply (Hin (error [] (model_type Bus) v)). left.
    + destruct (Arc_end_supplied _ kw "to" v _ Arc_field_to eq_refl eq_refl Hk Hv)
        as (errs & He & Hin).
      exists errs. split; [done|].
      apply (Hin (error [] (model_type Bus) v)). left.
  - intros kwb es -> Hes.
    assert (validate (model_schema Bus Bus_fields) (VDict kwb) = Invalid es)
      as Hv by exact Hes.
    split; intros Hk.
    + by apply (Arc_end_supplied _ kw "from" _ _ Arc_field_from eq_refl eq_refl Hk).
    + by apply (Arc_end_supplied _ kw "to" _ _ Arc_field_to eq_refl eq_refl Hk).
Qed.

End lax_mode.

(** * The theorems at concrete arguments *)

(** The calls below pass no string where a number or a bus type is
    declared and no number beyond 2^53: they are evaluated with the
    conversions [exact_numbers]. *)
Existing Instance exact_numbers.

Lemma Bus_number_positive_witness :
  (∃ errs, construct DCBus (<["number" := VInt 0]> {[ "name" := VStr "b" ]})
           = Invalid errs ∧
           error ["number"] (greater_than 0) (VInt 0) ∈ errs)
  ∧ (∃ obj, construct DCBus (<["number" := VInt 7]> {[ "name" := VStr "b" ]})
            = Ok obj ∧ isinstance obj DCBus = true ∧
            getattr obj "number" = Some (VInt 7)).
Proof.
  split.
  - apply (Bus_number_positive DCBus {[ "name" := VStr "b" ]} 0 eq_refl). lia.
  - apply (Bus_number_positive DCBus {[ "name" := VStr "b" ]} 7 eq_refl).
    + lia.
    + exists (VInt 1). vm_compute. exact I.
Defined.

Lemma ACBus_angle_open_interval_witness :
  is_ok (construct ACBus
           (<["angle" := VFloat 0.5]>
              {[ "name" := VStr "b"; "number" := VInt 1 ]}))
  ↔ (- float_1_571 < 0.5 ∧ 0.5 < float_1_571)%Q.
Proof.
  refine (proj1 (ACBus_angle_open_interval
                   {[ "name" := VStr "b"; "number" := VInt 1 ]} 0.5 _)).
  exists VNone. vm_compute. exact I.
Defined.

Lemma Bus_base_voltage_positive_voltage_witness :
  is_ok (construct DCBus
           (<["base_voltage" := VQuantity (quantity 20 ureg.kV)]>
              {[ "name" := VStr "b"; "number" := VInt 1 ]}))
  ↔ (0 < magnitude (quantity 20 ureg.kV))%Q
    ∧ ureg.dimensionality (units (quantity 20 ureg.kV)) = voltage_dim.
Proof.
  refine (proj1 (Bus_base_voltage_positive_voltage DCBus
                   {[ "name" := VStr "b"; "number" := VInt 1 ]}
                   (quantity 20 ureg.kV) eq_refl _)).
  exists VNone. vm_compute. exact I.
Defined.

Lemma aggregation_peak_power_non_negative_witness :
  (∃ errs, construct LoadZone
             (<["peak_reactive_power" := VFloat (-0.5)]> {[ "name" := VStr "z" ]})
           = Invalid errs ∧
           error ["peak_reactive_power"] (greater_than_equal 0) (VFloat (-0.5))
             ∈ errs)
  ∧ (∃ obj, construct Area
              (<["peak_active_power" := VFloat 2.5]> {[ "name" := VStr "z" ]})
            = Ok obj ∧
            getattr obj "peak_active_power" = Some (VFloat 2.5))
  ∧ (∃ obj, construct Area
              (<["load_response" := VFloat (-3)]> {[ "name" := VStr "z" ]})
            = Ok obj ∧
            getattr obj "load_response" = Some (VFloat (-3))).
Proof.
  split; [|split].
  - refine (proj1 (aggregation_peak_power_non_negative LoadZone
                     "peak_reactive_power" {[ "name" := VStr "z" ]} (-0.5)
                     (or_intror eq_refl) (or_intror eq_refl)) _).
    reflexivity.
  - refine (proj1 (proj2 (aggregation_peak_power_non_negative Area
                     "peak_active_power" {[ "name" := VStr "z" ]} 2.5
                     (or_introl eq_refl) (or_introl eq_refl))) _ _).
    + discriminate.
    + exists (VFloat 0). vm_compute. exact I.
  - refine (proj2 (proj2 (aggregation_peak_power_non_negative Area
                     "peak_active_power" {[ "name" := VStr "z" ]} (-3)
                     (or_introl eq_refl) (or_introl eq_refl))) _).
    exists (VFloat 0). vm_compute. exact I.
Defined.

Lemma Bus_voltage_limits_ordered_witness :
  (∃ errs,
     (m ← MinMax_new 1.1 0.9;
      construct ACBus
        (<["voltage_limits" := VMinMax m]>
           {[ "name" := VStr "b"; "number" := VInt 1 ]})) = Invalid errs ∧
     errs = [error [] min_greater_than_max
               (VDict {[ "min" := VFloat 1.1; "max" := VFloat 0.9 ]})])
  ∧ (∃ m obj,
       MinMax_new 0.9 1.1 = Ok m ∧ MinMax.min m = 0.9%Q ∧ MinMax.max m = 1.1%Q ∧
       (m ← MinMax_new 0.9 1.1;
        construct ACBus
          (<["voltage_limits" := VMinMax m]>
             {[ "name" := VStr "b"; "number" := VInt 1 ]})) = Ok obj ∧
       getattr obj "voltage_limits" = Some (VMinMax m)).
Proof.
  split.
  - refine (proj1 (Bus_voltage_limits_ordered ACBus
                     {[ "name" := VStr "b"; "number" := VInt 1 ]} 1.1 0.9
                     eq_refl) _).
    reflexivity.
  - refine (proj1 (proj2 (Bus_voltage_limits_ordered ACBus
                     {[ "name" := VStr "b"; "number" := VInt 1 ]} 0.9 1.1
                     eq_refl)) _ _).
    + discriminate.
    + exists VNone. vm_compute. exact I.
Defined.

Lemma Bus_optional_fields_default_absent_witness :
  ∃ obj,
    construct ACBus
      (delete "angle"
         {[ "name" := VStr "b"; "number" := VInt 1; "angle" := VFloat 0.5 ]})
    = Ok obj ∧ getattr obj "angle" = Some VNone.
Proof.
  refine (proj1 (Bus_optional_fields_default_absent ACBus "angle"
                   {[ "name" := VStr "b"; "number" := VInt 1;
                      "angle" := VFloat 0.5 ]}
                   eq_refl (or_intror (conj eq_refl eq_refl)) _)).
  exists VNone. vm_compute. exact I.
Defined.

Lemma abstract_classes_constructible_witness :
  construct Bus {[ "name" := VStr "b"; "number" := VInt 3 ]}
  = Ok (VModel Bus
          [("name", VStr "b"); ("number", VInt 3); ("bustype", VNone);
           ("area", VNone); ("load_zone", VNone); ("voltage_limits", VNone);
           ("base_voltage", VNone); ("magnitude", VNone)]).
Proof.
  refine (proj2 (proj2 (abstract_classes_constructible "b" 3 _))).
  discriminate.
Defined.

Lemma Arc_name_default_and_excluded_witness :
  let b1 := VModel Bus
              [("name", VStr "a"); ("number", VInt 1); ("bustype", VNone);
               ("area", VNone); ("load_zone", VNone); ("voltage_limits", VNone);
               ("base_voltage", VNone); ("magnitude", VNone)] in
  let b2 := VModel DCBus
              [("name", VStr "b"); ("number", VInt 2); ("bustype", VNone);
               ("area", VNone); ("load_zone", VNone); ("voltage_limits", VNone);
               ("base_voltage", VNone); ("magnitude", VNone)] in
  ∃ arc,
    construct Arc {[ "name" := VStr "x"; "from" := b1; "to" := b2 ]} = Ok arc ∧
    getattr arc "name" = Some (VStr "x") ∧
    getattr arc "from_to" = Some b1 ∧ getattr arc "to_from" = Some b2 ∧
    model_dump arc !! "name" = None.
Proof.
  intros b1 b2.
  refine (proj1 (proj2 (proj2 (Arc_name_default_and_excluded b1 b2 "x" _ _)))).
  - exists Bus, {[ "name" := VStr "a"; "number" := VInt 1 ]}.
    vm_compute. split; reflexivity.
  - exists DCBus, {[ "name" := VStr "b"; "number" := VInt 2 ]}.
    vm_compute. split; reflexivity.
Defined.

(** C1 as the spec states it fails: an arc constructed with [name="x"]
    has the name ["x"], not the empty string. *)
Lemma Arc_name_always_empty_counterexample :
  (∃ bus arc,
     construct DCBus {[ "name" := VStr "b"; "number" := VInt 1 ]} = Ok bus ∧
     construct Arc {[ "name" := VStr "x"; "from" := bus; "to" := bus ]} = Ok arc ∧
     getattr arc "name" = Some (VStr "x"))
  ∧ ¬ (∀ b1 b2 s, Bus_value b1 → Bus_value b2 →
         ∃ arc, construct Arc {[ "name" := VStr s; "from" := b1; "to" := b2 ]}
                = Ok arc ∧
                getattr arc "name" = Some (VStr EmptyString)).
Proof.
  destruct (construct DCBus {[ "name" := VStr "b"; "number" := VInt 1 ]})
    as [bus|] eqn:Hbus; [|by vm_compute in Hbus].
  assert (Bus_value bus) as Hb.
  { exists DCBus, {[ "name" := VStr "b"; "number" := VInt 1 ]}. by split. }
  vm_compute in Hbus. injection Hbus as <-.
  split.
  - do 2 eexists. split; [reflexivity|]. split; vm_compute; reflexivity.
  - intros H. destruct (H _ _ "x" Hb Hb) as (arc & Harc & Hname).
    vm_compute in Harc. injection Harc as <-. vm_compute in Hname. discriminate.
Qed.

Lemma construct_reports_every_violation_witness :
  ∃ errs,
    construct ACBus
      {[ "angle" := VFloat 2; "number" := VInt 0; "foo" := VNone ]}
    = Invalid errs ∧
    error ["foo"] extra_forbidden VNone ∈ errs.
Proof.
  destruct (proj2 (construct_reports_every_violation ACBus
                     {[ "angle" := VFloat 2; "number" := VInt 0;
                        "foo" := VNone ]}))
    as (errs & Herrs & _ & _ & _ & _ & Hextra).
  - right. exists "foo". split.
    + vm_compute. by eexists.
    + apply undeclared_check. reflexivity.
  - exists errs. split; [exact Herrs|].
    apply Hextra; [reflexivity|]. apply undeclared_check. reflexivity.
Defined.

Lemma instance_attributes_stored_witness :
  ∃ a, getattr (VModel Topology [("name", VStr "t")]) "name" = Some a ∧
       stored str a ∧ validate str a = Ok a.
Proof.
  refine (instance_attributes_stored Topology {[ "name" := VStr "t" ]}
            (VModel Topology [("name", VStr "t")]) _
            (Field "name" str required) _).
  - vm_compute. reflexivity.
  - vm_compute. left.
Defined.

Lemma Bus_instance_invariant_witness :
  ∃ n, getattr (VModel Bus
                  [("name", VStr "b"); ("number", VInt 3); ("bustype", VNone);
                   ("area", VNone); ("load_zone", VNone);
                   ("voltage_limits", VNone); ("base_voltage", VNone);
                   ("magnitude", VNone)]) "number" = Some (VInt n) ∧ (1 <= n)%Z.
Proof.
  refine (proj1 (Bus_instance_invariant Bus
                   {[ "name" := VStr "b"; "number" := VInt 3 ]} _ eq_refl _)).
  vm_compute. reflexivity.
Defined.


Lemma aggregation_instance_invariant_witness :
  ∃ p, getattr (VModel LoadZone
                  [("name", VStr "z"); ("peak_active_power", VFloat 2.5);
                   ("peak_reactive_power", VFloat 0.0)]) "peak_active_power"
       = Some (VFloat p) ∧ (0 <= p)%Q.
Proof.
  refine (proj1 (aggregation_instance_invariant LoadZone
                   {[ "name" := VStr "z"; "peak_active_power" := VFloat 2.5 ]}
                   _ (or_intror eq_refl) _)).
  vm_compute. reflexivity.
Defined.

Lemma Arc_instance_invariant_witness :
  ∃ s, getattr
         (VModel Arc
            [("name", VStr "x");
             ("from_to", VModel Bus [("name", VStr "a"); ("number", VInt 1); ("bustype", VNone);
               ("area", VNone); ("load_zone", VNone); ("voltage_limits", VNone);
               ("base_voltage", VNone); ("magnitude", VNone)]);
             ("to_from", VModel DCBus [("name", VStr "b"); ("number", VInt 2); ("bustype", VNone);
               ("area", VNone); ("load_zone", VNone); ("voltage_limits", VNone);
               ("base_voltage", VNone); ("magnitude", VNone)])])
         "name" = Some (VStr s).
Proof.
  refine (proj1 (Arc_instance_invariant
                   {[ "name" := VStr "x";
                      "from" := VModel Bus [("name", VStr "a"); ("number", VInt 1); ("bustype", VNone);
               ("area", VNone); ("load_zone", VNone); ("voltage_limits", VNone);
               ("base_voltage", VNone); ("magnitude", VNone)];
                      "to" := VModel DCBus [("name", VStr "b"); ("number", VInt 2); ("bustype", VNone);
               ("area", VNone); ("load_zone", VNone); ("voltage_limits", VNone);
               ("base_voltage", VNone); ("magnitude", VNone)] ]}
                   _ _)).
  vm_compute. reflexivity.
Defined.

Lemma construct_from_attributes_witness :
  construct DCBus
    (attributes
       (VModel DCBus
          [("name", VStr "b"); ("number", VInt 2); ("bustype", VNone);
           ("area", VNone); ("load_zone", VNone); ("voltage_limits", VNone);
           ("base_voltage", VNone); ("magnitude", VFloat 1)]))
  = Ok (VModel DCBus
          [("name", VStr "b"); ("number", VInt 2); ("bustype", VNone);
           ("area", VNone); ("load_zone", VNone); ("voltage_limits", VNone);
           ("base_voltage", VNone); ("magnitude", VFloat 1)]).
Proof.
  refine (construct_from_attributes DCBus
            {[ "name" := VStr "b"; "number" := VInt 2; "magnitude" := VInt 1 ]}
            _ _ _).
  - discriminate.
  - vm_compute. reflexivity.
Defined.

Lemma ACBus_extends_Bus_witness :
  construct ACBus {[ "name" := VStr "b"; "number" := VInt 1 ]}
  = Ok (VModel ACBus
          ([("name", VStr "b"); ("number", VInt 1); ("bustype", VNone);
            ("area", VNone); ("load_zone", VNone); ("voltage_limits", VNone);
            ("base_voltage", VNone); ("magnitude", VNone)]
           ++ [("angle", VNone)])%list)
  ↔ construct Bus {[ "name" := VStr "b"; "number" := VInt 1 ]}
    = Ok (VModel Bus
            [("name", VStr "b"); ("number", VInt 1); ("bustype", VNone);
             ("area", VNone); ("load_zone", VNone); ("voltage_limits", VNone);
             ("base_voltage", VNone); ("magnitude", VNone)]).
Proof.
  refine (proj2 (ACBus_extends_Bus
                   {[ "name" := VStr "b"; "number" := VInt 1 ]} _) _).
  reflexivity.
Defined.

Lemma explicit_None_is_omission_witness :
  construct ACBus
    (<["angle" := VNone]> {[ "name" := VStr "b"; "number" := VInt 1 ]})
  = Ok (VModel ACBus
          [("name", VStr "b"); ("number", VInt 1); ("bustype", VNone);
           ("area", VNone); ("load_zone", VNone); ("voltage_limits", VNone);
           ("base_voltage", VNone); ("magnitude", VNone); ("angle", VNone)])
  ↔ construct ACBus
      (delete "angle" {[ "name" := VStr "b"; "number" := VInt 1 ]})
    = Ok (VModel ACBus
            [("name", VStr "b"); ("number", VInt 1); ("bustype", VNone);
             ("area", VNone); ("load_zone", VNone); ("voltage_limits", VNone);
             ("base_voltage", VNone); ("magnitude", VNone); ("angle", VNone)]).
Proof.
  exact (explicit_None_is_omission ACBus "angle"
           {[ "name" := VStr "b"; "number" := VInt 1 ]} _
           eq_refl (or_intror (conj eq_refl eq_refl))).
Defined.

Lemma Bus_magnitude_non_negative_witness :
  (∃ errs, construct Bus
             (<["magnitude" := VFloat (-1)]>
                {[ "name" := VStr "b"; "number" := VInt 1 ]}) = Invalid errs ∧
           error ["magnitude"] (greater_than_equal 0) (VFloat (-1)) ∈ errs)
  ∧ (is_ok (construct Bus
              (<["magnitude" := VFloat 0]>
                 {[ "name" := VStr "b"; "number" := VInt 1 ]})) ↔ (0 <= 0)%Q).
Proof.
  split.
  - refine (proj1 (Bus_magnitude_non_negative Bus
                     {[ "name" := VStr "b"; "number" := VInt 1 ]} (-1) eq_refl) _).
    reflexivity.
  - refine (proj1 (proj2 (Bus_magnitude_non_negative Bus
                     {[ "name" := VStr "b"; "number" := VInt 1 ]} 0 eq_refl) _)).
    exists VNone. vm_compute. exact I.
Defined.

Lemma aggregation_defaults_zero_witness :
  ∃ obj, construct Area (delete "load_response" {[ "name" := VStr "z" ]}) = Ok obj ∧
         getattr obj "load_response" = Some (VFloat 0.0).
Proof.
  refine (aggregation_defaults_zero Area "load_response" {[ "name" := VStr "z" ]}
            (or_intror (conj eq_refl eq_refl)) _).
  exists (VFloat 1). vm_compute. exact I.
Defined.

Lemma Bus_area_load_zone_class_witness :
  (is_ok (construct DCBus
            (<["area" := VModel Area
                           [("name", VStr "New York");
                            ("peak_active_power", VFloat 0.0);
                            ("peak_reactive_power", VFloat 0.0);
                            ("load_response", VFloat 0.0)]]>
               {[ "name" := VStr "b"; "number" := VInt 1 ]})) ↔ Area = Area)
  ∧ (∃ errs,
       construct DCBus
         (<["area" := VModel LoadZone
                        [("name", VStr "z"); ("peak_active_power", VFloat 0.0);
                         ("peak_reactive_power", VFloat 0.0)]]>
            {[ "name" := VStr "b"; "number" := VInt 1 ]}) = Invalid errs ∧
       error ["area"] (model_type Area)
         (VModel LoadZone
            [("name", VStr "z"); ("peak_active_power", VFloat 0.0);
             ("peak_reactive_power", VFloat 0.0)]) ∈ errs).
Proof.
  split.
  - refine (proj1 (proj1 (Bus_area_load_zone_class DCBus
                     {[ "name" := VStr "b"; "number" := VInt 1 ]} Area _ eq_refl) _)).
    exists VNone. vm_compute. exact I.
  - refine (proj1 (proj2 (proj2 (Bus_area_load_zone_class DCBus
                     {[ "name" := VStr "b"; "number" := VInt 1 ]} LoadZone _
                     eq_refl))) _).
    discriminate.
Defined.

Lemma Bus_nested_mapping_witness :
  ∃ obj,
    construct ACBus
      (<["load_zone" := VDict {[ "name" := VStr "z" ]}]>
         {[ "name" := VStr "b"; "number" := VInt 1 ]}) = Ok obj ∧
    getattr obj "load_zone"
    = Some (VModel LoadZone
              [("name", VStr "z"); ("peak_active_power", VFloat 0.0);
               ("peak_reactive_power", VFloat 0.0)]).
Proof.
  refine (proj2 (Bus_nested_mapping ACBus LoadZone "load_zone"
                   {[ "name" := VStr "b"; "number" := VInt 1 ]}
                   {[ "name" := VStr "z" ]} eq_refl
                   (or_intror (conj eq_refl eq_refl))) _ _ _).
  - exists VNone. vm_compute. exact I.
  - vm_compute. reflexivity.
Defined.

Lemma Bus_number_required_witness :
  ∃ errs, construct Bus {[ "name" := VStr "b" ]} = Invalid errs ∧
          error ["number"] missing (VDict {[ "name" := VStr "b" ]}) ∈ errs.
Proof.
  refine (proj1 (Bus_number_required Bus {[ "name" := VStr "b" ]} eq_refl) _).
  reflexivity.
Defined.

Lemma Arc_end_points_required_witness :
  ∃ errs, construct Arc {[ "name" := VStr "x" ]} = Invalid errs ∧
          error ["to"] missing (VDict {[ "name" := VStr "x" ]}) ∈ errs.
Proof.
  refine (proj2 (Arc_end_points_required {[ "name" := VStr "x" ]}) _ _);
    reflexivity.
Defined.

Lemma Arc_end_points_are_buses_witness :
  ∃ errs,
    construct Arc
      {[ "from" := VModel Area
                     [("name", VStr "New York"); ("peak_active_power", VFloat 0.0);
                      ("peak_reactive_power", VFloat 0.0);
                      ("load_response", VFloat 0.0)];
         "to" := VNone ]} = Invalid errs ∧
    error ["from"] (model_type Bus)
      (VModel Area
         [("name", VStr "New York"); ("peak_active_power", VFloat 0.0);
          ("peak_reactive_power", VFloat 0.0); ("load_response", VFloat 0.0)])
      ∈ errs.
Proof.
  refine (proj1 (proj1 (Arc_end_points_are_buses
            {[ "from" := VModel Area
                     [("name", VStr "New York"); ("peak_active_power", VFloat 0.0);
                      ("peak_reactive_power", VFloat 0.0);
                      ("load_response", VFloat 0.0)];
               "to" := VNone ]} _) _ _) _).
  - discriminate.
  - reflexivity.
  - reflexivity.
Defined.
